(** * Pot-Limit-Omaha calculator: the equity estimator of [backend/main.py]

    A shallow embedding of [convertCardStrToTreys], [calculateEquity] and
    the arithmetic of [calculateOdds], and the properties of the
    specification stated over it.

    Conventions of the embedding.
    - A treys card is a Python [int]: [card := Z].
    - Python exceptions are the constructors of [exn]; a computation that
      raises carries the exception in [Raise].
    - Python lists are mutable objects: they live in a [heap] and are named
      by locations, so that [.copy()], [+] (a new list) and [.append]
      (in place) are told apart.
    - The [treys] package is not part of the repository: [Card.new], a
      freshly shuffled [Deck()] and [Evaluator.evaluate] are parameters.
      Each of the two calls may raise: [Card.new] is written for one
      string and the source hands it two integers, and the evaluator
      scores hands of five to seven cards while the source hands it
      [hole + board].  A parameter answers [None] where the call raises;
      the module [Treys] instantiates them as the library behaves.
    - [shuffled i] is the deck of trial [i] of one call: another call
      has other decks.
    - [wins / numSimulations] and the pot odds are Python floats; they
      are modelled by the exact rationals of [Q]: what is stated of them
      is stated of the exact quotient.
    - Strings are strings of 8-bit characters and [upper], [lower] map
      the ASCII letters: they are Python's [str.upper], [str.lower] on
      ASCII strings.
    - Logging and timing have no influence on results and are left out. *)

From Stdlib Require Import Ascii String.
From Stdlib Require Import List ListDec ZArith QArith Lia Lqa Bool Arith Permutation.
Import ListNotations.

Local Open Scope string_scope.
Local Open Scope list_scope.
Local Open Scope nat_scope.

(** ** Exceptions and results *)

Inductive exn : Type :=
| ValueError_card_format (cardStr : string)  (* line 75: "Invalid card format: ..." *)
| IndexError_string_index                    (* [cardStr[-1]] on the empty string *)
| TypeError                                  (* line 77: [Card.new] refuses its arguments *)
| ValueError_list_remove                     (* [list.remove(x)]: x not in list *)
| IndexError_pop_empty                       (* [deck.draw()] on an empty deck *)
| KeyError (key : nat)                       (* lines 131, 134: no evaluator for [key] cards *)
| ZeroDivisionError                          (* float division by zero *)
| HTTPException (status : Z) (detail : string)  (* line 193 *)
| LoopBound.                                 (* no Python exception: a [while] left by its bound *)

Inductive result (A : Type) : Type :=
| OK (a : A)
| Raise (e : exn).
Arguments OK {A} a.
Arguments Raise {A} e.

(** ** Python strings *)

Definition upper_char (c : ascii) : ascii :=
  let n := nat_of_ascii c in
  if (97 <=? n) && (n <=? 122) then ascii_of_nat (n - 32) else c.

Definition lower_char (c : ascii) : ascii :=
  let n := nat_of_ascii c in
  if (65 <=? n) && (n <=? 90) then ascii_of_nat (n + 32) else c.

(** [s.upper()] and [s.lower()] *)
Fixpoint upper (s : string) : string :=
  match s with
  | EmptyString => EmptyString
  | String c r => String (upper_char c) (upper r)
  end.

Fixpoint lower (s : string) : string :=
  match s with
  | EmptyString => EmptyString
  | String c r => String (lower_char c) (lower r)
  end.

(** [s[:-1]]: everything but the last character; the empty string for
    the empty string. *)
Fixpoint slice_but_last (s : string) : string :=
  match s with
  | EmptyString => EmptyString
  | String c r =>
      match r with
      | EmptyString => EmptyString
      | String _ _ => String c (slice_but_last r)
      end
  end.

(** [s[-1]]: the last character; [None] stands for the [IndexError] of
    indexing the empty string. *)
Fixpoint index_last (s : string) : option ascii :=
  match s with
  | EmptyString => None
  | String c r =>
      match r with
      | EmptyString => Some c
      | String _ _ => index_last r
      end
  end.

(** A dict with string keys, as an association list in source order. *)
Fixpoint dict_get {V : Type} (d : list (string * V)) (k : string) : option V :=
  match d with
  | [] => None
  | (k', v) :: d' => if String.eqb k k' then Some v else dict_get d' k
  end.

Definition dict_mem {V : Type} (d : list (string * V)) (k : string) : bool :=
  match dict_get d k with Some _ => true | None => false end.

(** ** Card codec *)

Definition card : Type := Z.

Definition rankMap : list (string * Z) :=
  [("2", 2); ("3", 3); ("4", 4); ("5", 5); ("6", 6); ("7", 7); ("8", 8); ("9", 9);
   ("10", 10); ("J", 11); ("Q", 12); ("K", 13); ("A", 14)]%Z.

Definition suitMap : list (string * Z) :=
  [("s", 0); ("h", 1); ("d", 2); ("c", 3)]%Z.

Section Codec.

(** [treys.Card.new], as the source calls it: on a rank and a suit.
    [None]: the call raises [TypeError]. *)
Variable Card_new : Z -> Z -> option card.

Definition convertCardStrToTreys (cardStr : string) : result card :=
  let rank := upper (slice_but_last cardStr) in
  match index_last cardStr with
  | None => Raise IndexError_string_index
  | Some ch =>
      let suit := lower (String ch EmptyString) in
      match dict_get rankMap rank, dict_get suitMap suit with
      | Some r, Some s =>
          match Card_new r s with
          | Some c => OK c
          | None => Raise TypeError
          end
      | _, _ => Raise (ValueError_card_format cardStr)
      end
  end.

End Codec.

(** ** A state and exception monad

    The state survives an exception: what the heap looks like when a
    [Raise] leaves the function can be inspected. *)

Definition M (S A : Type) : Type := S -> result A * S.

Definition ret {S A : Type} (a : A) : M S A := fun s => (OK a, s).

Definition raise {S A : Type} (e : exn) : M S A := fun s => (Raise e, s).

Definition lift {S A : Type} (r : result A) : M S A := fun s => (r, s).

Definition bind {S A B : Type} (m : M S A) (k : A -> M S B) : M S B :=
  fun s =>
    match m s with
    | (OK a, s') => k a s'
    | (Raise e, s') => (Raise e, s')
    end.

(** [try: m  except Exception as e: raise h(e)] *)
Definition try_except {S A : Type} (m : M S A) (h : exn -> exn) : M S A :=
  fun s =>
    match m s with
    | (OK a, s') => (OK a, s')
    | (Raise e, s') => (Raise (h e), s')
    end.

Notation "x <- m ;; k" := (bind m (fun x => k))
  (at level 61, m at next level, right associativity).
Notation "m ;;; k" := (bind m (fun _ => k))
  (at level 61, right associativity).

(** [for x in xs: body(x)] *)
Fixpoint for_each {S A : Type} (xs : list A) (body : A -> M S unit) : M S unit :=
  match xs with
  | [] => ret tt
  | x :: xs' => body x ;;; for_each xs' body
  end.

(** [[e for _ in range(n)]]: the list of the results of [n] runs of [e]. *)
Fixpoint comprehension {S A : Type} (n : nat) (e : M S A) : M S (list A) :=
  match n with
  | O => ret []
  | S n' => a <- e ;; r <- comprehension n' e ;; ret (a :: r)
  end.

(** [while cond: body], cut after [bound] runs of the body: leaving the
    loop by the bound raises [LoopBound]. *)
Fixpoint while_ {S : Type} (bound : nat) (cond : M S bool) (body : M S unit) : M S unit :=
  match bound with
  | O => b <- cond ;; if b then raise LoopBound else ret tt
  | S bound' => b <- cond ;; if b then body ;;; while_ bound' cond body else ret tt
  end.

(** [range(n)] for a Python [int] [n]: empty when [n <= 0]. *)
Definition range (n : Z) : list Z := map Z.of_nat (seq 0 (Z.to_nat n)).

(** [for x in xs: acc = body(x, acc)]: a loop whose only local state is
    [acc]. *)
Fixpoint for_fold {S X A : Type} (xs : list X) (body : X -> A -> M S A) (acc : A) : M S A :=
  match xs with
  | [] => ret acc
  | x :: xs' => acc' <- body x acc ;; for_fold xs' body acc'
  end.

(** ** The heap of Python lists *)

Definition loc : Type := nat.

Record heap : Type := mkHeap {
  strs : list (list string);  (* the lists of [str], by location *)
  cards : list (list card);   (* the lists of [int], by location *)
  drawn : list card           (* ghost: the cards [deck.draw()] has returned, oldest first *)
}.

Fixpoint upd {A : Type} (n : nat) (x : A) (l : list A) {struct l} : list A :=
  match l, n with
  | [], _ => []
  | _ :: t, O => x :: t
  | y :: t, S n' => y :: upd n' x t
  end.

Definition read_strs (r : loc) : M heap (list string) :=
  fun h => (OK (nth r (strs h) []), h).

Definition read (r : loc) : M heap (list card) :=
  fun h => (OK (nth r (cards h) []), h).

Definition write (r : loc) (l : list card) : M heap unit :=
  fun h => (OK tt, mkHeap (strs h) (upd r l (cards h)) (drawn h)).

(** A list display or any expression that builds a new list object. *)
Definition new_list (l : list card) : M heap loc :=
  fun h => (OK (length (cards h)), mkHeap (strs h) (cards h ++ [l]) (drawn h)).

Definition note_draw (c : card) : M heap unit :=
  fun h => (OK tt, mkHeap (strs h) (cards h) (drawn h ++ [c])).

(** [r.append(c)] *)
Definition list_append (r : loc) (c : card) : M heap unit :=
  l <- read r ;; write r (l ++ [c]).

(** [r.copy()] *)
Definition list_copy (r : loc) : M heap loc :=
  l <- read r ;; new_list l.

(** [len(r)] *)
Definition len (r : loc) : M heap nat :=
  l <- read r ;; ret (length l).

(** What [l.remove(x)] leaves: [l] without the first occurrence of [x];
    [None] when [x] is not in [l]. *)
Fixpoint remove_first (x : card) (l : list card) : option (list card) :=
  match l with
  | [] => None
  | y :: t =>
      if Z.eqb y x then Some t
      else match remove_first x t with
           | Some t' => Some (y :: t')
           | None => None
           end
  end.

(** [r.remove(x)] *)
Definition list_remove (r : loc) (x : card) : M heap unit :=
  l <- read r ;;
  match remove_first x l with
  | Some l' => write r l'
  | None => raise ValueError_list_remove
  end.

(** ** The simulation engine *)

Definition numSimulations : nat := 1000.

Section Engine.

(** The three entry points of [treys] the source uses.
    - [Card_new rank suit] is [TreysCard.new(rank, suit)]; [None] when
      the call raises.
    - [evaluate hand board] is [evaluator.evaluate(hand, board)]; the
      source compares its results with [>], a lower score being the
      better hand.  [None] when the evaluator has no entry for the
      number of cards it is given and raises [KeyError] on that number.
    - [shuffled i] is the content of [deck.cards] of the [Deck()] built
      in trial [i]: the randomness of the call. *)
Variable Card_new : Z -> Z -> option card.
Variable evaluate : list card -> list card -> option Z.
Variable shuffled : nat -> list card.

(** [deck = TreysDeck()] in trial [i]; the deck is known by the location
    of its [cards] list. *)
Definition TreysDeck (i : nat) : M heap loc := new_list (shuffled i).

(** [deck.draw()], as the source uses it: one card leaves [deck.cards]
    and is returned, the card itself, which the source appends to a list
    of cards; on an empty list the [pop] inside raises [IndexError].
    The card taken is the head of the list: the order of a shuffled deck
    is arbitrary. *)
Definition Deck_draw (deck : loc) : M heap card :=
  l <- read deck ;;
  match l with
  | [] => raise IndexError_pop_empty
  | c :: l' => write deck l' ;;; note_draw c ;;; ret c
  end.

(** Lines 96-98 and 101-103: a new list, filled with the decoded
    tokens of the list at [tokens]. *)
Definition convert_all (tokens : loc) : M heap loc :=
  out <- new_list [] ;;
  ts <- read_strs tokens ;;
  for_each ts (fun card =>
    c <- lift (convertCardStrToTreys Card_new card) ;;
    list_append out c) ;;;
  ret out.

(** Lines 113-130 of trial [i]: the hero's hand and the opponents'
    hands, each with the completed board appended.  The [while] loop
    appends a card at every turn, so five turns are enough: [deal_run]
    shows that its bound is never reached. *)
Definition deal (i : nat) (holeCardsTreys communityCardsTreys : loc) (numPlayers : Z)
  : M heap (list card * list (list card)) :=
  deck <- TreysDeck i ;;
  hs <- read holeCardsTreys ;;
  cs <- read communityCardsTreys ;;
  for_each (hs ++ cs) (fun card => list_remove deck card) ;;;
  currentCommunity <- list_copy communityCardsTreys ;;
  while_ 5 (n <- len currentCommunity ;; ret (n <? 5))
           (c <- Deck_draw deck ;; list_append currentCommunity c) ;;;
  opponentHands <-
    for_fold (range (numPlayers - 1)) (fun _ opponentHands =>
      opponentCards <- comprehension 4 (Deck_draw deck) ;;
      cc <- read currentCommunity ;;
      ret (opponentHands ++ [opponentCards ++ cc])) [] ;;
  hs' <- read holeCardsTreys ;;
  cc <- read currentCommunity ;;
  ret (hs' ++ cc, opponentHands).

(** [evaluator.evaluate(hand, board)].  [Evaluator()] of line 106 has
    no state of its own in the model: [evaluate] is a function. *)
Definition Evaluator_evaluate (hand board : list card) : result Z :=
  match evaluate hand board with
  | Some score => OK score
  | None => Raise (KeyError (length (hand ++ board)))
  end.

(** Line 134: [all(evaluator.evaluate(oppHand, []) > ourScore for oppHand
    in opponentHands)].  The hands are scored in order and the first
    whose score is not greater ends the test. *)
Fixpoint all_greater (ourScore : Z) (opponentHands : list (list card)) : result bool :=
  match opponentHands with
  | [] => OK true
  | oppHand :: rest =>
      match Evaluator_evaluate oppHand [] with
      | OK score => if (score >? ourScore)%Z then all_greater ourScore rest else OK false
      | Raise e => Raise e
      end
  end.

(** Lines 131-134: the hero's hand is scored first, then the test. *)
Definition showdown (ourHand : list card) (opponentHands : list (list card))
  : result bool :=
  match Evaluator_evaluate ourHand [] with
  | OK ourScore => all_greater ourScore opponentHands
  | Raise e => Raise e
  end.

(** One run of the body of the loop of line 112. *)
Definition trial (holeCardsTreys communityCardsTreys : loc) (numPlayers : Z)
           (i : nat) (wins : Z) : M heap Z :=
  hands <- deal i holeCardsTreys communityCardsTreys numPlayers ;;
  win <- lift (showdown (fst hands) (snd hands)) ;;
  if win then ret (wins + 1)%Z else ret wins.

Definition calculateEquity (holeCards communityCards : loc) (numPlayers : Z) : M heap Q :=
  try_except
    (holeCardsTreys <- convert_all holeCards ;;
     communityCardsTreys <- convert_all communityCards ;;
     wins <- for_fold (seq 0 numSimulations)
               (trial holeCardsTreys communityCardsTreys numPlayers) 0%Z ;;
     ret (inject_Z wins / inject_Z (Z.of_nat numSimulations))%Q)
    (fun e => e).

End Engine.

(** ** The odds of [calculateOdds] *)

Record HandRequest : Type := mkRequest {
  holeCards : loc;
  communityCards : loc;
  numPlayers : Z;
  potSize : Q;
  betToCall : Q
}.

Record HandResponse : Type := mkResponse {
  equity : Q;
  potOdds : Q;
  shouldCall : bool;
  ev : Q
}.

(** Python's [a / b] on floats. *)
Definition true_div (a b : Q) : result Q :=
  if Qeq_bool b 0 then Raise ZeroDivisionError else OK (a / b)%Q.

(** Line 173. *)
Definition pot_odds (potSize betToCall : Q) : result Q :=
  true_div betToCall (potSize + betToCall)%Q.

Section Endpoint.

Variable Card_new : Z -> Z -> option card.
Variable evaluate : list card -> list card -> option Z.
Variable shuffled : nat -> list card.

(** Python's [str(e)]: the text of an exception. *)
Variable str : exn -> string.

Definition calculateOdds (request : HandRequest) : M heap HandResponse :=
  try_except
    (equity <- calculateEquity Card_new evaluate shuffled
                 (holeCards request) (communityCards request) (numPlayers request) ;;
     potOdds <- lift (pot_odds (potSize request) (betToCall request)) ;;
     let ev := (equity * potSize request - (1 - equity) * betToCall request)%Q in
     let shouldCall := Qle_bool 0 ev in
     ret (mkResponse equity potOdds shouldCall ev))
    (fun e => HTTPException 400 (str e)).

End Endpoint.

(** ** The functional model of a trial

    What [deal] computes, as functions of the lists involved.  The run of
    the heap program is proved equal to it below ([deal_run]). *)

(** The loop of lines 115-116 on the content of [deck.cards]: the result
    and the cards left. *)
Fixpoint remove_all (known deck : list card) : result unit * list card :=
  match known with
  | [] => (OK tt, deck)
  | x :: known' =>
      match remove_first x deck with
      | Some deck' => remove_all known' deck'
      | None => (Raise ValueError_list_remove, deck)
      end
  end.

(** [m] opponents served from [deck], four cards each, on [board]. *)
Fixpoint opponent_hands (m : nat) (deck board : list card) : list (list card) :=
  match m with
  | O => []
  | S m' => (firstn 4 deck ++ board) :: opponent_hands m' (skipn 4 deck) board
  end.

Record dealt : Type := mkDealt {
  outcome : result (list card * list (list card));  (* what [deal] returns or raises *)
  objects : list (list card);                       (* the lists it has built: deck.cards, currentCommunity *)
  draws : list card                                 (* the cards it has drawn, in order *)
}.

Definition deal_fun (hole community : list card) (m : nat) (fresh : list card) : dealt :=
  match remove_all (hole ++ community) fresh with
  | (Raise e, deck1) => mkDealt (Raise e) [deck1] []
  | (OK _, deck1) =>
      let k := 5 - length community in
      let board := community ++ firstn k deck1 in
      let deck2 := skipn k deck1 in
      if k <=? length deck1 then
        mkDealt
          (if 4 * m <=? length deck2
           then OK (hole ++ board, opponent_hands m deck2 board)
           else Raise IndexError_pop_empty)
          [skipn (4 * m) deck2; board]
          (firstn k deck1 ++ firstn (4 * m) deck2)
      else mkDealt (Raise IndexError_pop_empty) [deck2; board] (firstn k deck1)
  end.

(** The tokens of a list decoded in order: the result and the cards
    decoded before the first failure. *)
Fixpoint decode_all (Card_new : Z -> Z -> option card) (tokens : list string)
  : result unit * list card :=
  match tokens with
  | [] => (OK tt, [])
  | t :: tokens' =>
      match convertCardStrToTreys Card_new t with
      | OK c => let r := decode_all Card_new tokens' in (fst r, c :: snd r)
      | Raise e => (Raise e, [])
      end
  end.

Section Model.

Variable Card_new : Z -> Z -> option card.
Variable evaluate : list card -> list card -> option Z.
Variable shuffled : nat -> list card.

(** What trial [i] does: it raises, or it is a win or not. *)
Definition played (hole community : list card) (m : nat) (i : nat) : result bool :=
  match outcome (deal_fun hole community m (shuffled i)) with
  | OK hands => showdown evaluate (fst hands) (snd hands)
  | Raise e => Raise e
  end.

(** Trial [i] is a win. *)
Definition won (hole community : list card) (m : nat) (i : nat) : bool :=
  match played hole community m i with
  | OK win => win
  | Raise _ => false
  end.

(** The trials [trials], run in order from the count [wins]. *)
Fixpoint simulate_fun (hole community : list card) (m : nat)
         (trials : list nat) (wins : Z) : result Z :=
  match trials with
  | [] => OK wins
  | i :: trials' =>
      match played hole community m i with
      | OK win =>
          simulate_fun hole community m trials' (if win then wins + 1 else wins)%Z
      | Raise e => Raise e
      end
  end.

Definition calculateEquity_fun (holeCards communityCards : list string) (numPlayers : Z)
  : result Q :=
  match decode_all Card_new holeCards with
  | (Raise e, _) => Raise e
  | (OK _, hole) =>
      match decode_all Card_new communityCards with
      | (Raise e, _) => Raise e
      | (OK _, community) =>
          match simulate_fun hole community (Z.to_nat (numPlayers - 1))
                  (seq 0 numSimulations) 0%Z with
          | OK wins => OK (inject_Z wins / inject_Z (Z.of_nat numSimulations))%Q
          | Raise e => Raise e
          end
      end
  end.

End Model.

(** ** Valid inputs and the contract of the deck *)

Definition ranks : list Z := map snd rankMap.
Definition suits : list Z := map snd suitMap.

(** What the program expects of [Deck()]: 52 cards, once each, in any
    order, among them every card [Card.new] makes. *)
Definition deck_ok (Card_new : Z -> Z -> option card) (fresh : list card) : Prop :=
  NoDup fresh /\ length fresh = 52 /\
  forall r s c, In r ranks -> In s suits -> Card_new r s = Some c -> In c fresh.

(** The tokens are well formed and [cs] are their cards, in order. *)
Definition decodes (Card_new : Z -> Z -> option card) (tokens : list string) (cs : list card)
  : Prop :=
  Forall2 (fun t c => convertCardStrToTreys Card_new t = OK c) tokens cs.

(** The draws of one trial: the rest of the board and four cards an
    opponent. *)
Definition needed (community : list card) (numPlayers : Z) : nat :=
  (5 - length community) + 4 * Z.to_nat (numPlayers - 1).

(** The deck left after the known cards has the cards a trial needs. *)
Definition feasible (hole community : list card) (numPlayers : Z) : Prop :=
  needed community numPlayers + length (hole ++ community) <= 52.

(** The input is valid: well-formed tokens of distinct cards and a
    player count the deck can serve.  The numbers of hole and community
    cards are left free. *)
Definition valid_input (Card_new : Z -> Z -> option card)
           (holeTokens communityTokens : list string)
           (hole community : list card) (numPlayers : Z) : Prop :=
  decodes Card_new holeTokens hole /\
  decodes Card_new communityTokens community /\
  NoDup (hole ++ community) /\
  feasible hole community numPlayers.

(** The number of winning trials of a call. *)
Definition wins_of (evaluate : list card -> list card -> option Z) (shuffled : nat -> list card)
           (hole community : list card) (numPlayers : Z) : Z :=
  Z.of_nat (length (filter (won evaluate shuffled hole community
                                (Z.to_nat (numPlayers - 1)))
                           (seq 0 numSimulations))).

(** ** The Omaha rule, in the words of the specification

    The best of the scores of the 60 hands made of two hole cards and
    three board cards.  It is the reference the program is compared with;
    no function of the source computes it. *)

(** The sublists of [l] with [k] elements, in the order of
    [itertools.combinations]. *)
Fixpoint combinations {A : Type} (k : nat) (l : list A) : list (list A) :=
  match k, l with
  | O, _ => [[]]
  | S _, [] => []
  | S k', x :: l' => map (cons x) (combinations k' l') ++ combinations k l'
  end.

Definition omaha_scores (five : list card -> Z) (hole board : list card) : list Z :=
  flat_map (fun h2 => map (fun b3 => five (h2 ++ b3)) (combinations 3 board))
           (combinations 2 hole).

Definition omaha_best (five : list card -> Z) (hole board : list card) : option Z :=
  match omaha_scores five hole board with
  | [] => None
  | s :: rest => Some (fold_right Z.min s rest)
  end.

(** ** A library that answers every call

    A library as the source calls it: [Card.new] makes a card of a
    rank and a suit and the evaluator scores a hand of any size.
    Cards are numbered [4 * rank + suit]; a fresh deck holds the 52
    cards, cut at a place that depends on the trial; a hand is the
    better the more cards of one rank it holds, and then the higher its
    highest rank. *)

Module Sample.

Definition card_of (rank suit : Z) : card := (4 * rank + suit)%Z.

Definition Card_new (rank suit : Z) : option card := Some (card_of rank suit).

Definition full_deck : list card :=
  flat_map (fun r => map (card_of r) [0; 1; 2; 3]%Z)
           [2; 3; 4; 5; 6; 7; 8; 9; 10; 11; 12; 13; 14]%Z.

Definition shuffled (i : nat) : list card :=
  let k := (7 * i) mod 52 in
  skipn k full_deck ++ firstn k full_deck.

Definition rank_of (c : card) : Z := (c / 4)%Z.

(** The largest number of cards of one rank among [cs]. *)
Definition of_a_kind (cs : list card) : nat :=
  fold_right Nat.max 0
    (map (fun c => length (filter (fun c' => Z.eqb (rank_of c') (rank_of c)) cs)) cs).

Definition score (cs : list card) : Z :=
  (16 * (9 - Z.of_nat (of_a_kind cs)) + (14 - fold_right Z.max 0 (map rank_of cs)))%Z.

Definition evaluate (hand board : list card) : option Z := Some (score (hand ++ board)).

(** The caller's two lists, in a heap that holds nothing else. *)
Definition request_heap (holeCards communityCards : list string) : heap :=
  mkHeap [holeCards; communityCards] [] [].

Definition run (holeCards communityCards : list string) (numPlayers : Z)
  : result Q * heap :=
  calculateEquity Card_new evaluate shuffled 0 1 numPlayers
    (request_heap holeCards communityCards).

End Sample.

(** ** The library as it behaves

    [treys.Card.new] takes one string: called with a rank and a suit it
    raises [TypeError], whatever the two are.  [Evaluator.evaluate]
    looks the number of cards up in a table with the entries 5, 6 and
    7 and raises [KeyError] on any other number.  What a scored hand is
    worth and how a deck is shuffled are taken from [Sample]: of [Deck()]
    the statements below use that it holds 52 cards once each, and of a
    score nothing. *)

Module Treys.

Definition Card_new (rank suit : Z) : option card := None.

Definition evaluate (hand board : list card) : option Z :=
  let cs := hand ++ board in
  if (5 <=? length cs) && (length cs <=? 7) then Some (Sample.score cs) else None.

Definition shuffled : nat -> list card := Sample.shuffled.

Definition run (holeCards communityCards : list string) (numPlayers : Z)
  : result Q * heap :=
  calculateEquity Card_new evaluate shuffled 0 1 numPlayers
    (Sample.request_heap holeCards communityCards).

End Treys.

(** ** Further notions *)

(** Every character of the string is an ASCII character. *)
Fixpoint is_ascii (s : string) : bool :=
  match s with
  | EmptyString => true
  | String c s' => (nat_of_ascii c <? 128) && is_ascii s'
  end.

(** The evaluator has a score for every hand the showdowns of a call
    put to it: no trial that deals its hands raises in lines 131-134. *)
Definition scores_dealt (evaluate : list card -> list card -> option Z)
           (shuffled : nat -> list card)
           (hole community : list card) (numPlayers : Z) : Prop :=
  forall i hands, i < numSimulations ->
    outcome (deal_fun hole community (Z.to_nat (numPlayers - 1)) (shuffled i)) = OK hands ->
    exists win, showdown evaluate (fst hands) (snd hands) = OK win.

(** What the codec reads of a token: the rank part in upper case and the
    last character in lower case. *)
Definition token_key (cardStr : string) : string * option ascii :=
  (upper (slice_but_last cardStr), option_map lower_char (index_last cardStr)).

(** The token is well formed. *)
Definition decodable (Card_new : Z -> Z -> option card) (cardStr : string) : Prop :=
  exists c, convertCardStrToTreys Card_new cardStr = OK c.

(** The hole cards of [m] opponents served from [deck], in the order of
    [opponent_hands]. *)
Fixpoint fours (m : nat) (deck : list card) : list (list card) :=
  match m with
  | O => []
  | S m' => firstn 4 deck :: fours m' (skipn 4 deck)
  end.

(** * Properties *)

(** ** Lists as heaps *)

Lemma nth_new {A : Type} (cs : list A) (x d : A) (t : list A) :
  nth (length cs) (cs ++ x :: t) d = x.
Proof. induction cs as [|c cs IH]; simpl; auto. Qed.

Lemma nth_new2 {A : Type} (cs : list A) (x y d : A) (t : list A) :
  nth (S (length cs)) (cs ++ x :: y :: t) d = y.
Proof. induction cs as [|c cs IH]; simpl; auto. Qed.

Lemma nth_old {A : Type} (cs t : list A) (d : A) (r : nat) :
  r < length cs -> nth r (cs ++ t) d = nth r cs d.
Proof. intros Hr. now apply app_nth1. Qed.

Lemma upd_new {A : Type} (cs : list A) (x y : A) (t : list A) :
  upd (length cs) x (cs ++ y :: t) = cs ++ x :: t.
Proof. induction cs as [|c cs IH]; simpl; [reflexivity | now rewrite IH]. Qed.

Lemma upd_new2 {A : Type} (cs : list A) (x y z : A) (t : list A) :
  upd (S (length cs)) x (cs ++ y :: z :: t) = cs ++ y :: x :: t.
Proof. induction cs as [|c cs IH]; simpl; [reflexivity | now rewrite IH]. Qed.

Lemma firstn_add {A : Type} (a b : nat) (l : list A) :
  firstn (a + b) l = firstn a l ++ firstn b (skipn a l).
Proof.
  revert l; induction a as [|a IH]; intros [|x l]; cbn [Nat.add firstn skipn app].
  - reflexivity.
  - reflexivity.
  - now rewrite firstn_nil.
  - now rewrite IH.
Qed.

Lemma app_two {A : Type} (cs : list A) (x y : A) :
  (cs ++ [x]) ++ [y] = cs ++ [x; y].
Proof. now rewrite <- app_assoc. Qed.

Lemma length_one_more {A : Type} (cs : list A) (x : A) :
  length (cs ++ [x]) = S (length cs).
Proof. rewrite length_app; simpl; lia. Qed.

(** ** Running the primitives *)

Lemma run_bind {S A B : Type} (m : M S A) (k : A -> M S B) (s : S) :
  bind m k s = match m s with
               | (OK a, s') => k a s'
               | (Raise e, s') => (Raise e, s')
               end.
Proof. reflexivity. Qed.

Lemma run_ret {S A : Type} (a : A) (s : S) : ret a s = (OK a, s).
Proof. reflexivity. Qed.

Lemma run_raise {S A : Type} (e : exn) (s : S) : @raise S A e s = (Raise e, s).
Proof. reflexivity. Qed.

Lemma run_lift {S A : Type} (r : result A) (s : S) : lift r s = (r, s).
Proof. reflexivity. Qed.

Lemma run_read (r : loc) (h : heap) : read r h = (OK (nth r (cards h) []), h).
Proof. reflexivity. Qed.

Lemma run_read_strs (r : loc) (h : heap) : read_strs r h = (OK (nth r (strs h) []), h).
Proof. reflexivity. Qed.

Lemma run_write (r : loc) (l : list card) (h : heap) :
  write r l h = (OK tt, mkHeap (strs h) (upd r l (cards h)) (drawn h)).
Proof. reflexivity. Qed.

Lemma run_new_list (l : list card) (h : heap) :
  new_list l h = (OK (length (cards h)), mkHeap (strs h) (cards h ++ [l]) (drawn h)).
Proof. reflexivity. Qed.

Lemma run_note_draw (c : card) (h : heap) :
  note_draw c h = (OK tt, mkHeap (strs h) (cards h) (drawn h ++ [c])).
Proof. reflexivity. Qed.

Lemma run_len (r : loc) (h : heap) : len r h = (OK (length (nth r (cards h) [])), h).
Proof. reflexivity. Qed.

Lemma run_list_append (r : loc) (c : card) (h : heap) :
  list_append r c h
  = (OK tt, mkHeap (strs h) (upd r (nth r (cards h) [] ++ [c]) (cards h)) (drawn h)).
Proof. reflexivity. Qed.

Lemma run_list_copy (r : loc) (h : heap) :
  list_copy r h
  = (OK (length (cards h)), mkHeap (strs h) (cards h ++ [nth r (cards h) []]) (drawn h)).
Proof. reflexivity. Qed.

Lemma run_list_remove (r : loc) (x : card) (h : heap) :
  list_remove r x h
  = match remove_first x (nth r (cards h) []) with
    | Some l' => (OK tt, mkHeap (strs h) (upd r l' (cards h)) (drawn h))
    | None => (Raise ValueError_list_remove, h)
    end.
Proof.
  unfold list_remove. rewrite run_bind, run_read.
  now destruct (remove_first x (nth r (cards h) [])).
Qed.

Create Rewrite HintDb run.
#[local] Hint Rewrite @run_bind @run_ret @run_raise @run_lift run_read run_read_strs
  run_write run_new_list run_note_draw run_len run_list_append run_list_copy
  run_list_remove : run.

Ltac run := repeat (autorewrite with run; cbn [strs cards drawn fst snd]).

(** ** The loops of a trial, run on a heap *)

Section Runs.

Variable Card_new : Z -> Z -> option card.
Variable evaluate : list card -> list card -> option Z.
Variable shuffled : nat -> list card.

Variable s : list (list string).
Variable cs : list (list card).

(** The deck is the last object of the heap. *)
Lemma remove_known_run (known D : list card) (dr : list card) :
  for_each known (fun card => list_remove (length cs) card) (mkHeap s (cs ++ [D]) dr)
  = (fst (remove_all known D), mkHeap s (cs ++ [snd (remove_all known D)]) dr).
Proof.
  revert D; induction known as [|x known IH]; intros D.
  - reflexivity.
  - cbn [for_each remove_all]. run. rewrite nth_new.
    destruct (remove_first x D) as [D'|].
    + rewrite upd_new. apply IH.
    + reflexivity.
Qed.

(** From here on the deck and [currentCommunity] are the last two. *)
Let deck : loc := length cs.
Let currentCommunity : loc := S (length cs).

Lemma draw_run (D B dr : list card) :
  Deck_draw deck (mkHeap s (cs ++ [D; B]) dr)
  = match D with
    | [] => (Raise IndexError_pop_empty, mkHeap s (cs ++ [D; B]) dr)
    | c :: D' => (OK c, mkHeap s (cs ++ [D'; B]) (dr ++ [c]))
    end.
Proof.
  unfold Deck_draw, deck. run. rewrite nth_new.
  destruct D as [|c D']; run; [reflexivity|].
  now rewrite upd_new.
Qed.

Lemma complete_run (bound : nat) :
  forall D B dr, 5 - length B <= bound ->
    while_ bound (n <- len currentCommunity ;; ret (n <? 5))
                 (c <- Deck_draw deck ;; list_append currentCommunity c)
           (mkHeap s (cs ++ [D; B]) dr)
    = (if 5 - length B <=? length D then OK tt else Raise IndexError_pop_empty,
       mkHeap s (cs ++ [skipn (5 - length B) D; B ++ firstn (5 - length B) D])
              (dr ++ firstn (5 - length B) D)).
Proof.
  assert (Hstop : forall D B dr, (length B <? 5) = false ->
    (OK tt, mkHeap s (cs ++ [D; B]) dr)
    = (if 5 - length B <=? length D then OK tt else Raise IndexError_pop_empty,
       mkHeap s (cs ++ [skipn (5 - length B) D; B ++ firstn (5 - length B) D])
              (dr ++ firstn (5 - length B) D))).
  { intros D B dr Hlt. apply Nat.ltb_ge in Hlt.
    replace (5 - length B) with 0 by lia.
    cbn [Nat.leb skipn firstn]. now rewrite !app_nil_r. }
  induction bound as [|bound IH]; intros D B dr Hb.
  - cbn [while_]. unfold currentCommunity. run. rewrite nth_new2.
    destruct (length B <? 5) eqn:Hlt; run.
    + apply Nat.ltb_lt in Hlt. lia.
    + now apply Hstop.
  - cbn [while_]. unfold currentCommunity at 1. run. rewrite nth_new2.
    destruct (length B <? 5) eqn:Hlt; run; [|now apply Hstop].
    apply Nat.ltb_lt in Hlt.
    rewrite draw_run.
    destruct D as [|c D'].
    + replace (5 - length B <=? length (@nil card)) with false
        by (symmetry; apply Nat.leb_gt; cbn [length]; lia).
      now rewrite skipn_nil, firstn_nil, !app_nil_r.
    + unfold currentCommunity at 1. run. rewrite nth_new2, upd_new2.
      rewrite IH by (rewrite length_one_more; lia).
      rewrite length_one_more.
      replace (5 - length B) with (S (5 - S (length B))) by lia.
      cbn [skipn firstn length Nat.leb].
      now rewrite <- !app_assoc.
Qed.

Lemma draws_run (n : nat) :
  forall D B dr,
    comprehension n (Deck_draw deck) (mkHeap s (cs ++ [D; B]) dr)
    = (if n <=? length D then OK (firstn n D) else Raise IndexError_pop_empty,
       mkHeap s (cs ++ [skipn n D; B]) (dr ++ firstn n D)).
Proof.
  induction n as [|n IH]; intros D B dr.
  - cbn [comprehension Nat.leb firstn skipn]. run. now rewrite app_nil_r.
  - cbn [comprehension]. run. rewrite draw_run.
    destruct D as [|c D'].
    + cbn [length Nat.leb]. now rewrite skipn_nil, firstn_nil, app_nil_r.
    + run. rewrite IH. cbn [length Nat.leb firstn skipn].
      rewrite <- app_assoc. cbn [app].
      destruct (n <=? length D'); run; reflexivity.
Qed.

Lemma opponents_run (xs : list Z) :
  forall acc D B dr,
    for_fold xs (fun _ opponentHands =>
                   opponentCards <- comprehension 4 (Deck_draw deck) ;;
                   cc <- read currentCommunity ;;
                   ret (opponentHands ++ [opponentCards ++ cc])) acc
             (mkHeap s (cs ++ [D; B]) dr)
    = (if 4 * length xs <=? length D
       then OK (acc ++ opponent_hands (length xs) D B)
       else Raise IndexError_pop_empty,
       mkHeap s (cs ++ [skipn (4 * length xs) D; B]) (dr ++ firstn (4 * length xs) D)).
Proof.
  induction xs as [|x xs IH]; intros acc D B dr.
  - cbn [for_fold length opponent_hands]. run.
    rewrite Nat.mul_0_r. cbn [Nat.leb firstn skipn]. now rewrite !app_nil_r.
  - cbn [for_fold length opponent_hands]. run. rewrite draws_run.
    replace (4 * S (length xs)) with (4 + 4 * length xs) by lia.
    destruct (4 <=? length D) eqn:H4; run.
    + apply Nat.leb_le in H4.
      unfold currentCommunity. rewrite nth_new2, IH.
      rewrite length_skipn, skipn_skipn, (Nat.add_comm (4 * length xs) 4).
      rewrite <- !app_assoc, <- firstn_add. cbn [app].
      replace (4 * length xs <=? length D - 4) with (4 + 4 * length xs <=? length D).
      * reflexivity.
      * destruct (4 * length xs <=? length D - 4) eqn:E.
        -- apply Nat.leb_le in E. apply Nat.leb_le. lia.
        -- apply Nat.leb_gt in E. apply Nat.leb_gt. lia.
    + apply Nat.leb_gt in H4.
      replace (4 + 4 * length xs <=? length D) with false
        by (symmetry; apply Nat.leb_gt; lia).
      now rewrite !skipn_all2, !firstn_all2 by lia.
Qed.

End Runs.

(** ** A trial and the whole call, run on a heap *)

Section Refinement.

Variable Card_new : Z -> Z -> option card.
Variable evaluate : list card -> list card -> option Z.
Variable shuffled : nat -> list card.

Lemma length_range (n : Z) : length (range n) = Z.to_nat n.
Proof. unfold range. now rewrite length_map, length_seq. Qed.

(** [deal] returns what [deal_fun] says, appends the lists it builds to
    the heap and leaves every other list as it was. *)
Lemma deal_run (i : nat) (hT cT : loc) (n : Z) (h : heap) :
  hT < length (cards h) -> cT < length (cards h) ->
  deal shuffled i hT cT n h
  = let d := deal_fun (nth hT (cards h) []) (nth cT (cards h) [])
               (Z.to_nat (n - 1)) (shuffled i) in
    (outcome d, mkHeap (strs h) (cards h ++ objects d) (drawn h ++ draws d)).
Proof.
  destruct h as [s cs dr]; cbn [cards strs drawn]; intros HhT HcT.
  unfold deal, TreysDeck, deal_fun. run.
  rewrite !nth_old by assumption.
  rewrite remove_known_run.
  destruct (remove_all (nth hT cs [] ++ nth cT cs []) (shuffled i)) as [[[]|e] D1];
    cbn [fst snd outcome objects draws]; [|now rewrite app_nil_r].
  run. rewrite length_one_more, app_two.
  rewrite !nth_old by assumption.
  rewrite complete_run by lia.
  set (k := 5 - length (nth cT cs [])).
  destruct (k <=? length D1) eqn:Hk; cbn [outcome objects draws]; [|reflexivity].
  run. rewrite opponents_run, length_range.
  destruct (4 * Z.to_nat (n - 1) <=? length (skipn k D1));
    run; cbn [outcome objects draws].
  - rewrite nth_old, nth_new2 by assumption.
    cbn [app]. now rewrite <- app_assoc.
  - now rewrite <- app_assoc.
Qed.

Lemma trial_run (hT cT : loc) (n : Z) (i : nat) (wins : Z) (h : heap) :
  hT < length (cards h) -> cT < length (cards h) ->
  trial evaluate shuffled hT cT n i wins h
  = let d := deal_fun (nth hT (cards h) []) (nth cT (cards h) [])
               (Z.to_nat (n - 1)) (shuffled i) in
    (match played evaluate shuffled (nth hT (cards h) []) (nth cT (cards h) [])
             (Z.to_nat (n - 1)) i with
     | OK win => OK (if win then wins + 1 else wins)%Z
     | Raise e => Raise e
     end,
     mkHeap (strs h) (cards h ++ objects d) (drawn h ++ draws d)).
Proof.
  intros HhT HcT. unfold trial, played. run. rewrite deal_run by assumption.
  cbv zeta.
  destruct (outcome (deal_fun _ _ _ _)) as [hands|e]; [|reflexivity].
  run. destruct (showdown evaluate (fst hands) (snd hands)) as [[|]|e]; now run.
Qed.

(** The loop of line 112 returns what [simulate_fun] says and only
    adds lists to the heap. *)
Lemma simulate_run (hT cT : loc) (n : Z) (trials : list nat) :
  forall (wins : Z) (h : heap),
    hT < length (cards h) -> cT < length (cards h) ->
    exists ext drw,
      for_fold trials (trial evaluate shuffled hT cT n) wins h
      = (simulate_fun evaluate shuffled (nth hT (cards h) []) (nth cT (cards h) [])
           (Z.to_nat (n - 1)) trials wins,
         mkHeap (strs h) (cards h ++ ext) (drawn h ++ drw)).
Proof.
  induction trials as [|i trials IH]; intros wins h HhT HcT.
  - exists [], []. cbn [for_fold simulate_fun]. run.
    rewrite !app_nil_r. now destruct h.
  - cbn [for_fold simulate_fun]. run. rewrite trial_run by assumption. cbv zeta.
    set (d := deal_fun _ _ _ _).
    destruct (played evaluate shuffled _ _ _ i) as [win|e].
    + set (h1 := mkHeap _ _ _).
      destruct (IH (if win then wins + 1 else wins)%Z h1) as (ext & drw & E).
      * unfold h1; cbn [cards]. rewrite length_app. lia.
      * unfold h1; cbn [cards]. rewrite length_app. lia.
      * exists (objects d ++ ext), (draws d ++ drw).
        rewrite E. unfold h1; cbn [cards strs drawn].
        rewrite !nth_old by assumption. now rewrite !app_assoc.
    + now exists (objects d), (draws d).
Qed.

Lemma decode_loop_run (s : list (list string)) (cs : list (list card))
      (ts : list string) :
  forall (L dr : list card),
    for_each ts (fun card =>
                   c <- lift (convertCardStrToTreys Card_new card) ;;
                   list_append (length cs) c)
             (mkHeap s (cs ++ [L]) dr)
    = (fst (decode_all Card_new ts),
       mkHeap s (cs ++ [L ++ snd (decode_all Card_new ts)]) dr).
Proof.
  induction ts as [|t ts IH]; intros L dr.
  - cbn [for_each decode_all fst snd]. now rewrite app_nil_r.
  - cbn [for_each decode_all]. run.
    destruct (convertCardStrToTreys Card_new t) as [c|e]; run.
    + rewrite nth_new, upd_new, IH. now rewrite <- app_assoc.
    + now rewrite app_nil_r.
Qed.

Lemma convert_all_run (tokens : loc) (h : heap) :
  convert_all Card_new tokens h
  = let r := decode_all Card_new (nth tokens (strs h) []) in
    (match fst r with OK _ => OK (length (cards h)) | Raise e => Raise e end,
     mkHeap (strs h) (cards h ++ [snd r]) (drawn h)).
Proof.
  destruct h as [s cs dr]. unfold convert_all. run.
  rewrite decode_loop_run. cbv zeta. cbn [app].
  destruct (fst (decode_all Card_new (nth tokens s []))) as [[]|e]; run; reflexivity.
Qed.

Lemma try_except_id {S A : Type} (m : M S A) (st : S) :
  try_except m (fun e => e) st = m st.
Proof. unfold try_except. now destruct (m st) as [[a|e] st']. Qed.

(** The call returns what [calculateEquity_fun] says of the caller's
    two lists; it adds lists to the heap, the two decoded lists first,
    and changes none that was there. *)
Lemma calculateEquity_run (holeCards communityCards : loc) (n : Z) (h : heap) :
  exists ext drw,
    calculateEquity Card_new evaluate shuffled holeCards communityCards n h
    = (calculateEquity_fun Card_new evaluate shuffled
         (nth holeCards (strs h) []) (nth communityCards (strs h) []) n,
       mkHeap (strs h) (cards h ++ ext) (drawn h ++ drw))
    /\ (forall hole community,
          decode_all Card_new (nth holeCards (strs h) []) = (OK tt, hole) ->
          decode_all Card_new (nth communityCards (strs h) []) = (OK tt, community) ->
          exists ext', ext = hole :: community :: ext').
Proof.
  unfold calculateEquity, calculateEquity_fun. rewrite try_except_id. run.
  rewrite convert_all_run. cbv zeta.
  destruct (decode_all Card_new (nth holeCards (strs h) [])) as [[[]|e1] hole];
    cbn [fst snd].
  2:{ exists [hole], []. rewrite app_nil_r. split; [reflexivity|]. discriminate. }
  run. rewrite convert_all_run. cbv zeta. cbn [strs cards drawn].
  destruct (decode_all Card_new (nth communityCards (strs h) []))
    as [[[]|e2] community]; cbn [fst snd].
  2:{ exists [hole; community], []. rewrite app_nil_r, app_two.
      split; [reflexivity|]. discriminate. }
  run. rewrite app_two.
  set (h2 := mkHeap _ _ _).
  destruct (simulate_run (length (cards h)) (length (cards h ++ [hole])) n
              (seq 0 numSimulations) 0%Z h2) as (ext & drw & E).
  { unfold h2; cbn [cards]. rewrite length_app; cbn [length]. lia. }
  { unfold h2; cbn [cards]. rewrite length_one_more, length_app; cbn [length]. lia. }
  rewrite E. unfold h2; cbn [cards strs drawn].
  rewrite length_one_more, nth_new, nth_new2.
  exists (hole :: community :: ext), drw. split.
  - rewrite <- app_assoc. cbn [app].
    clear E. destruct (simulate_fun evaluate shuffled hole community _ _ _); reflexivity.
  - intros hole' community' E1 E2. inversion E1; inversion E2; subst. now exists ext.
Qed.

End Refinement.

(** ** The functional model: removal of the known cards *)

Lemma remove_first_some (x : card) (l l' : list card) :
  remove_first x l = Some l' ->
  In x l /\ length l = S (length l') /\ (forall y, In y l' -> In y l) /\
  (NoDup l -> NoDup l' /\ ~ In x l' /\ forall y, In y l -> y <> x -> In y l').
Proof.
  revert l'; induction l as [|a l IH]; intros l' H; cbn [remove_first] in H.
  - discriminate.
  - destruct (Z.eqb_spec a x) as [->|Hne].
    + inversion H; subst l'.
      split; [now left|]. split; [reflexivity|]. split; [intros y Hy; now right|].
      intros Hnd. inversion Hnd; subst.
      split; [assumption|]. split; [assumption|].
      intros y [Hy|Hy] Hyx; [congruence | assumption].
    + destruct (remove_first x l) as [t|]; [|discriminate].
      inversion H; subst l'. destruct (IH t eq_refl) as (Hin & Hlen & Hsub & Hnd).
      split; [now right|]. split; [cbn [length]; now rewrite Hlen|].
      split; [intros y [Hy|Hy]; [now left | right; now apply Hsub]|].
      intros Hnd'. inversion Hnd' as [|? ? Ha Hl]; subst.
      destruct (Hnd Hl) as (Ht & Hx & Hkeep).
      split; [|split].
      * constructor; [|assumption]. intros Hin'. apply Ha. now apply Hsub.
      * intros [Hy|Hy]; [congruence | contradiction].
      * intros y [Hy|Hy] Hyx; [now left | right; now apply Hkeep].
Qed.

Lemma remove_first_none (x : card) (l : list card) :
  remove_first x l = None <-> ~ In x l.
Proof.
  induction l as [|a l IH]; cbn [remove_first In].
  - tauto.
  - destruct (Z.eqb_spec a x) as [->|Hne].
    + split; [discriminate | tauto].
    + destruct (remove_first x l) as [t|].
      * split; [discriminate|]. intros H. exfalso.
        assert (Hin : ~ In x l) by tauto.
        apply IH in Hin. discriminate.
      * split; [|reflexivity]. intros _ [Hy|Hy]; [congruence|]. now apply IH.
Qed.

(** Removal succeeds exactly for distinct cards of the deck, and leaves
    the deck without them. *)
Lemma remove_all_ok (known : list card) :
  forall deck deck1,
    remove_all known deck = (OK tt, deck1) ->
    incl known deck /\ length deck = length known + length deck1 /\
    (forall y, In y deck1 -> In y deck) /\
    (NoDup deck -> NoDup known /\ NoDup deck1 /\ forall y, In y deck1 -> ~ In y known).
Proof.
  induction known as [|x known IH]; intros deck deck1 H; cbn [remove_all] in H.
  - inversion H; subst deck1.
    split; [intros y []|]. split; [reflexivity|]. split; [auto|].
    intros Hnd. split; [constructor|]. split; [assumption|]. intros y _ [].
  - destruct (remove_first x deck) as [deck'|] eqn:E; [|discriminate].
    destruct (remove_first_some _ _ _ E) as (Hin & Hlen & Hsub & Hnd).
    destruct (IH _ _ H) as (Hincl & Hlen' & Hsub' & Hnd').
    split; [intros y [<-|Hy]; [assumption | apply Hsub; now apply Hincl]|].
    split; [cbn [length]; lia|].
    split; [intros y Hy; apply Hsub; now apply Hsub'|].
    intros HND. destruct (Hnd HND) as (Hd' & Hx & _).
    destruct (Hnd' Hd') as (Hk & Hd1 & Hdisj).
    split; [|split].
    + constructor; [|assumption]. intros Hxk. apply Hx. now apply Hincl.
    + assumption.
    + intros y Hy [<-|Hyk].
      * apply Hx. now apply Hsub'.
      * now apply (Hdisj y).
Qed.

Lemma remove_all_raises (known : list card) :
  forall deck e deck1,
    remove_all known deck = (Raise e, deck1) -> e = ValueError_list_remove.
Proof.
  induction known as [|x known IH]; intros deck e deck1 H; cbn [remove_all] in H.
  - discriminate.
  - destruct (remove_first x deck) as [deck'|]; [now apply IH in H | now inversion H].
Qed.

Lemma remove_all_succeeds (known : list card) :
  forall deck, NoDup known -> incl known deck -> NoDup deck ->
    exists deck1, remove_all known deck = (OK tt, deck1).
Proof.
  induction known as [|x known IH]; intros deck Hk Hincl Hd; cbn [remove_all].
  - now exists deck.
  - inversion Hk as [|? ? Hx Hk']; subst.
    destruct (remove_first x deck) as [deck'|] eqn:E.
    + destruct (remove_first_some _ _ _ E) as (_ & _ & _ & Hnd).
      destruct (Hnd Hd) as (Hd' & _ & Hkeep).
      apply IH; [assumption| |assumption].
      intros y Hy. apply Hkeep; [apply Hincl; now right|]. congruence.
    + apply remove_first_none in E. exfalso. apply E, Hincl. now left.
Qed.

Lemma firstn_incl {A : Type} (n : nat) (l : list A) (x : A) :
  In x (firstn n l) -> In x l.
Proof.
  intros H. rewrite <- (firstn_skipn n l). apply in_or_app. now left.
Qed.

Lemma firstn_NoDup {A : Type} (n : nat) (l : list A) :
  NoDup l -> NoDup (firstn n l).
Proof.
  intros H. rewrite <- (firstn_skipn n l) in H. now apply NoDup_app_remove_r in H.
Qed.

(** ** The functional model: decoding *)

Section Decoding.

Variable Card_new : Z -> Z -> option card.

Lemma dict_get_in {V : Type} (d : list (string * V)) (k : string) (v : V) :
  dict_get d k = Some v -> In v (map snd d).
Proof.
  induction d as [|[k' v'] d IH]; cbn [dict_get map snd In].
  - discriminate.
  - destruct (String.eqb k k'); [intros H; inversion H; now left | auto].
Qed.

Lemma convert_ok (t : string) (c : card) :
  convertCardStrToTreys Card_new t = OK c ->
  exists r s, In r ranks /\ In s suits /\ Card_new r s = Some c.
Proof.
  unfold convertCardStrToTreys.
  destruct (index_last t) as [ch|]; [|discriminate].
  destruct (dict_get rankMap _) as [r|] eqn:Er; [|discriminate].
  destruct (dict_get suitMap _) as [s|] eqn:Es; [|discriminate].
  destruct (Card_new r s) as [c'|] eqn:Ec; [|discriminate].
  intros H; inversion H; subst c'. exists r, s.
  split; [now apply dict_get_in in Er|]. split; [now apply dict_get_in in Es|].
  assumption.
Qed.

Lemma decode_all_decodes (ts : list string) (cs : list card) :
  decode_all Card_new ts = (OK tt, cs) <-> decodes Card_new ts cs.
Proof.
  unfold decodes. revert cs; induction ts as [|t ts IH]; intros cs;
    cbn [decode_all].
  - split; intros H; inversion H; [constructor | reflexivity].
  - destruct (convertCardStrToTreys Card_new t) as [c|e] eqn:E.
    + destruct (decode_all Card_new ts) as [r cs'] eqn:D. cbn [fst snd]. split.
      * intros H; inversion H; subst. constructor; [assumption|]. now apply IH.
      * intros H; inversion H as [|? c' ? cs'' Hc Hr]; subst.
        rewrite E in Hc; inversion Hc; subst c'.
        apply IH in Hr. now inversion Hr.
    + split; [discriminate|]. intros H; inversion H; congruence.
Qed.

Lemma decodes_in_deck (ts : list string) (cs : list card) (fresh : list card) :
  decodes Card_new ts cs -> deck_ok Card_new fresh -> incl cs fresh.
Proof.
  intros Hd (_ & _ & Hall). induction Hd as [|t c ts cs Hc _ IH].
  - intros y [].
  - intros y [<-|Hy]; [|now apply IH].
    destruct (convert_ok _ _ Hc) as (r & s & Hr & Hs & Ec). now apply (Hall r s).
Qed.

End Decoding.

(** ** The functional model: a trial *)

Section Dealing.

Variables hole community : list card.
Variable m : nat.
Variable fresh : list card.

Let known := hole ++ community.
Let k := 5 - length community.

(** The cards drawn are distinct and none is a known card. *)
Lemma deal_fun_draws :
  NoDup fresh ->
  NoDup (draws (deal_fun hole community m fresh)) /\
  forall c, In c (draws (deal_fun hole community m fresh)) ->
            In c fresh /\ ~ In c known.
Proof.
  intros Hnd. unfold deal_fun. fold known. fold k.
  destruct (remove_all known fresh) as [[[]|e] deck1] eqn:E; cbn [draws].
  2:{ split; [constructor | intros c []]. }
  destruct (remove_all_ok _ _ _ E) as (_ & _ & Hsub & H).
  destruct (H Hnd) as (_ & Hnd1 & Hdisj).
  assert (P : forall n, NoDup (firstn n deck1) /\
              forall c, In c (firstn n deck1) -> In c fresh /\ ~ In c known).
  { intros n. split; [now apply firstn_NoDup|].
    intros c Hc. apply firstn_incl in Hc. split; [now apply Hsub | now apply Hdisj]. }
  destruct (k <=? length deck1); cbn [draws].
  - rewrite <- firstn_add. apply P.
  - apply P.
Qed.

Hypothesis fresh_nodup : NoDup fresh.
Hypothesis fresh_52 : length fresh = 52.
Hypothesis known_nodup : NoDup known.
Hypothesis known_in_deck : incl known fresh.

(** Enough cards: the trial reaches the showdown. *)
Lemma deal_fun_succeeds :
  k + 4 * m + length known <= 52 ->
  exists hands, outcome (deal_fun hole community m fresh) = OK hands.
Proof.
  intros Hfeas. unfold deal_fun. fold known. fold k.
  destruct (remove_all_succeeds known fresh known_nodup known_in_deck fresh_nodup)
    as (deck1 & E).
  rewrite E. destruct (remove_all_ok _ _ _ E) as (_ & Hlen & _).
  replace (k <=? length deck1) with true by (symmetry; apply Nat.leb_le; lia).
  cbn [outcome].
  replace (4 * m <=? length (skipn k deck1)) with true
    by (symmetry; apply Nat.leb_le; rewrite length_skipn; lia).
  eauto.
Qed.

(** Not enough cards: the trial draws the whole deck and then fails. *)
Lemma deal_fun_exhausts :
  52 < k + 4 * m + length known ->
  let d := deal_fun hole community m fresh in
  outcome d = Raise IndexError_pop_empty /\
  length (draws d) = 52 - length known /\
  exists board, objects d = [[]; board].
Proof.
  intros Hinf. unfold deal_fun. fold known. fold k.
  destruct (remove_all_succeeds known fresh known_nodup known_in_deck fresh_nodup)
    as (deck1 & E).
  rewrite E. destruct (remove_all_ok _ _ _ E) as (_ & Hlen & _).
  cbv zeta.
  destruct (k <=? length deck1) eqn:Hk; cbn [outcome draws objects].
  - apply Nat.leb_le in Hk.
    replace (4 * m <=? length (skipn k deck1)) with false
      by (symmetry; apply Nat.leb_gt; rewrite length_skipn; lia).
    split; [reflexivity|]. split.
    + rewrite length_app, !length_firstn, length_skipn. lia.
    + rewrite skipn_all2 by (rewrite length_skipn; lia). eauto.
  - apply Nat.leb_gt in Hk.
    split; [reflexivity|]. split.
    + rewrite length_firstn. lia.
    + rewrite skipn_all2 by lia. eauto.
Qed.

End Dealing.

(** A trial ends in a showdown, in the [ValueError] of [remove] or in the
    [IndexError] of [draw]: the bound of the model on the [while] loop is
    never what ends it. *)
Lemma deal_fun_outcomes (hole community : list card) (m : nat) (fresh : list card) :
  (exists hands, outcome (deal_fun hole community m fresh) = OK hands) \/
  outcome (deal_fun hole community m fresh) = Raise ValueError_list_remove \/
  outcome (deal_fun hole community m fresh) = Raise IndexError_pop_empty.
Proof.
  unfold deal_fun.
  destruct (remove_all (hole ++ community) fresh) as [[[]|e] deck1] eqn:E.
  - destruct (5 - length community <=? length deck1); cbn [outcome]; [|tauto].
    destruct (4 * m <=? _); eauto.
  - apply remove_all_raises in E. subst e. cbn [outcome]. tauto.
Qed.


(** ** The comparison of a trial *)

Section Showdown.

Variable evaluate : list card -> list card -> option Z.

Lemma Evaluator_evaluate_ok (hand board : list card) (s : Z) :
  Evaluator_evaluate evaluate hand board = OK s <-> evaluate hand board = Some s.
Proof.
  unfold Evaluator_evaluate. destruct (evaluate hand board) as [s'|].
  - split; intros H; inversion H; reflexivity.
  - split; discriminate.
Qed.

Lemma Evaluator_evaluate_raises (hand board : list card) (e : exn) :
  Evaluator_evaluate evaluate hand board = Raise e ->
  evaluate hand board = None /\ e = KeyError (length (hand ++ board)).
Proof.
  unfold Evaluator_evaluate. destruct (evaluate hand board) as [s'|].
  - discriminate.
  - intros H; inversion H. now split.
Qed.


Lemma all_greater_raises (ourScore : Z) (opponentHands : list (list card)) (e : exn) :
  all_greater evaluate ourScore opponentHands = Raise e ->
  exists oppHand, In oppHand opponentHands /\ evaluate oppHand [] = None /\
                  e = KeyError (length oppHand).
Proof.
  induction opponentHands as [|o rest IH]; cbn [all_greater In]; [discriminate|].
  destruct (Evaluator_evaluate evaluate o []) as [s|e'] eqn:E.
  - destruct (s >? ourScore)%Z; [|discriminate].
    intros H. destruct (IH H) as (x & Hx & Hn & He). exists x. auto.
  - intros H; inversion H; subst e'.
    apply Evaluator_evaluate_raises in E. rewrite app_nil_r in E.
    exists o. split; [now left | exact E].
Qed.

Lemma all_greater_answers (ourScore : Z) (opponentHands : list (list card)) :
  (forall oppHand, In oppHand opponentHands -> exists s, evaluate oppHand [] = Some s) ->
  exists win, all_greater evaluate ourScore opponentHands = OK win.
Proof.
  induction opponentHands as [|o rest IH]; cbn [all_greater]; intros Hall.
  - now exists true.
  - destruct (Hall o (or_introl eq_refl)) as (s & Es).
    apply Evaluator_evaluate_ok in Es. rewrite Es.
    destruct (s >? ourScore)%Z; [|now exists false].
    apply IH. intros x Hx. apply Hall. now right.
Qed.


(** The comparison raises only [KeyError], on the size of a hand the
    evaluator has no score for. *)
Lemma showdown_raises (ourHand : list card) (opponentHands : list (list card)) (e : exn) :
  showdown evaluate ourHand opponentHands = Raise e ->
  exists hand, (hand = ourHand \/ In hand opponentHands) /\
               evaluate hand [] = None /\ e = KeyError (length hand).
Proof.
  unfold showdown.
  destruct (Evaluator_evaluate evaluate ourHand []) as [s|e'] eqn:E.
  - intros H. destruct (all_greater_raises _ _ _ H) as (x & Hx & Hn & He).
    exists x. auto.
  - intros H; inversion H; subst e'.
    apply Evaluator_evaluate_raises in E. rewrite app_nil_r in E.
    exists ourHand. split; [now left | exact E].
Qed.

Lemma showdown_answers (ourHand : list card) (opponentHands : list (list card)) :
  (forall hand, hand = ourHand \/ In hand opponentHands ->
     exists s, evaluate hand [] = Some s) ->
  exists win, showdown evaluate ourHand opponentHands = OK win.
Proof.
  intros Hall. unfold showdown.
  destruct (Hall ourHand (or_introl eq_refl)) as (s & Es).
  apply Evaluator_evaluate_ok in Es. rewrite Es.
  apply all_greater_answers. intros x Hx. apply Hall. now right.
Qed.

(** Without an opponent the test of line 134 holds. *)
Lemma showdown_alone (ourHand : list card) (win : bool) :
  showdown evaluate ourHand [] = OK win -> win = true.
Proof.
  unfold showdown. destruct (Evaluator_evaluate evaluate ourHand []); [|discriminate].
  cbn [all_greater]. intros H; now inversion H.
Qed.

End Showdown.

(** ** The functional model: the thousand trials *)

Section Simulation.

Variable Card_new : Z -> Z -> option card.
Variable evaluate : list card -> list card -> option Z.
Variable shuffled : nat -> list card.
Variables hole community : list card.
Variable m : nat.

Lemma played_deal_raises (i : nat) (e : exn) :
  outcome (deal_fun hole community m (shuffled i)) = Raise e ->
  played evaluate shuffled hole community m i = Raise e.
Proof. intros E. unfold played. now rewrite E. Qed.

Lemma simulate_fun_all_ok (trials : list nat) :
  (forall i, In i trials ->
     exists win, played evaluate shuffled hole community m i = OK win) ->
  forall wins,
    simulate_fun evaluate shuffled hole community m trials wins
    = OK (wins + Z.of_nat (length (filter (won evaluate shuffled hole community m)
                                          trials)))%Z.
Proof.
  induction trials as [|i trials IH]; intros Hok wins; cbn [simulate_fun filter].
  - cbn [length]. f_equal. lia.
  - destruct (Hok i (or_introl eq_refl)) as (win & E).
    unfold won at 1. rewrite E.
    rewrite IH by (intros j Hj; apply Hok; now right).
    destruct win; cbn [length]; f_equal; lia.
Qed.

Lemma simulate_fun_first_fails (i : nat) (trials : list nat) (e : exn) (wins : Z) :
  played evaluate shuffled hole community m i = Raise e ->
  simulate_fun evaluate shuffled hole community m (i :: trials) wins = Raise e.
Proof. intros E. cbn [simulate_fun]. now rewrite E. Qed.

End Simulation.

Lemma numSimulations_Z : Z.of_nat numSimulations = 1000%Z.
Proof. vm_compute. reflexivity. Qed.

Lemma win_fraction_bounds (wins : Z) :
  (0 <= wins <= Z.of_nat numSimulations)%Z ->
  (0 <= inject_Z wins / inject_Z (Z.of_nat numSimulations) <= 1)%Q.
Proof.
  rewrite numSimulations_Z. intros [Hlo Hhi].
  unfold Qle, Qdiv, Qmult, Qinv, inject_Z.
  cbn [Qnum Qden Z.mul Pos.mul]. lia.
Qed.

Lemma wins_of_bounds evaluate shuffled hole community n :
  (0 <= wins_of evaluate shuffled hole community n <= Z.of_nat numSimulations)%Z.
Proof.
  unfold wins_of. split; [lia|]. apply inj_le.
  etransitivity; [apply filter_length_le|]. now rewrite length_seq.
Qed.

Section Call.

Variable Card_new : Z -> Z -> option card.
Variable evaluate : list card -> list card -> option Z.
Variable shuffled : nat -> list card.

Variables holeTokens communityTokens : list string.
Variables hole community : list card.
Variable n : Z.

Hypothesis hole_ok : decodes Card_new holeTokens hole.
Hypothesis community_ok : decodes Card_new communityTokens community.

(** Valid input, decks as expected, hands the evaluator scores: every
    trial is played to its end and the call returns the fraction of
    the trials won. *)
Lemma calculateEquity_fun_returns :
  (forall i, i < numSimulations -> deck_ok Card_new (shuffled i)) ->
  NoDup (hole ++ community) ->
  feasible hole community n ->
  scores_dealt evaluate shuffled hole community n ->
  calculateEquity_fun Card_new evaluate shuffled holeTokens communityTokens n
  = OK (inject_Z (wins_of evaluate shuffled hole community n)
        / inject_Z (Z.of_nat numSimulations))%Q.
Proof.
  intros Hdecks Hnd Hfeas Hscores. unfold calculateEquity_fun.
  rewrite (proj2 (decode_all_decodes _ _ _) hole_ok).
  rewrite (proj2 (decode_all_decodes _ _ _) community_ok).
  rewrite simulate_fun_all_ok.
  { unfold wins_of. now rewrite Z.add_0_l. }
  intros i Hi. apply in_seq in Hi.
  destruct (Hdecks i) as (Hfresh & H52 & Hall); [lia|].
  assert (Hdeck : deck_ok Card_new (shuffled i)) by (repeat split; assumption).
  destruct (deal_fun_succeeds hole community (Z.to_nat (n - 1)) (shuffled i))
    as (hands & E); try assumption.
  { apply incl_app; eapply decodes_in_deck; eassumption. }
  destruct (Hscores i hands) as (win & W); [lia | exact E |].
  exists win. unfold played. now rewrite E.
Qed.

(** The first trial fails: so does the call, with the same exception. *)
Lemma calculateEquity_fun_first_fails (e : exn) :
  outcome (deal_fun hole community (Z.to_nat (n - 1)) (shuffled 0)) = Raise e ->
  calculateEquity_fun Card_new evaluate shuffled holeTokens communityTokens n
  = Raise e.
Proof.
  intros E. unfold calculateEquity_fun.
  rewrite (proj2 (decode_all_decodes _ _ _) hole_ok).
  rewrite (proj2 (decode_all_decodes _ _ _) community_ok).
  change (seq 0 numSimulations) with (0 :: seq 1 (numSimulations - 1)).
  rewrite (simulate_fun_first_fails _ _ _ _ _ _ _ e); [reflexivity|].
  now apply played_deal_raises.
Qed.

End Call.

(** ** The sample instance meets the contract of the deck *)

Module SampleFacts.

Lemma full_deck_seq : Sample.full_deck = map Z.of_nat (seq 8 52).
Proof. vm_compute. reflexivity. Qed.

Lemma full_deck_ok : deck_ok Sample.Card_new Sample.full_deck.
Proof.
  split; [|split].
  - rewrite full_deck_seq. apply Finite.Injective_map_NoDup.
    + intros a b. apply Nat2Z.inj.
    + apply seq_NoDup.
  - reflexivity.
  - intros r s c Hr Hs Hc. inversion Hc; subst c.
    unfold Sample.full_deck. apply in_flat_map.
    exists r. split; [exact Hr|]. apply in_map. exact Hs.
Qed.

Lemma shuffled_perm (i : nat) : Permutation (Sample.shuffled i) Sample.full_deck.
Proof.
  unfold Sample.shuffled. cbv zeta.
  etransitivity; [apply Permutation_app_comm|]. now rewrite firstn_skipn.
Qed.

Lemma shuffled_ok (i : nat) : deck_ok Sample.Card_new (Sample.shuffled i).
Proof.
  destruct full_deck_ok as (Hnd & Hlen & Hall).
  pose proof (Permutation_sym (shuffled_perm i)) as P.
  split; [|split].
  - exact (Permutation_NoDup P Hnd).
  - rewrite <- Hlen. symmetry. exact (Permutation_length P).
  - intros r s c Hr Hs Hc. exact (Permutation_in _ P (Hall r s c Hr Hs Hc)).
Qed.

End SampleFacts.

Ltac distinct_cards :=
  repeat (constructor; [cbn [In]; intuition discriminate|]); constructor.

(** ** The call when its first trial fails *)

Section FirstTrial.

Variable Card_new : Z -> Z -> option card.
Variable evaluate : list card -> list card -> option Z.
Variable shuffled : nat -> list card.

(** The heap the call leaves when trial 0 raises: the two decoded lists,
    the lists of trial 0 and its draws have been added, nothing else has
    changed. *)
Lemma calculateEquity_first_trial_raises
      (holeCards communityCards : loc) (n : Z) (h : heap)
      (hole community : list card) (e : exn) :
  decodes Card_new (nth holeCards (strs h) []) hole ->
  decodes Card_new (nth communityCards (strs h) []) community ->
  played evaluate shuffled hole community (Z.to_nat (n - 1)) 0 = Raise e ->
  calculateEquity Card_new evaluate shuffled holeCards communityCards n h
  = (Raise e,
     mkHeap (strs h)
            (cards h ++ hole :: community
                     :: objects (deal_fun hole community (Z.to_nat (n - 1)) (shuffled 0)))
            (drawn h ++ draws (deal_fun hole community (Z.to_nat (n - 1)) (shuffled 0)))).
Proof.
  intros Hh Hc E.
  apply decode_all_decodes in Hh. apply decode_all_decodes in Hc.
  unfold calculateEquity. rewrite try_except_id. run.
  rewrite convert_all_run. cbv zeta. rewrite Hh. cbn [fst snd]. run.
  rewrite convert_all_run. cbv zeta. cbn [strs cards drawn]. rewrite Hc.
  cbn [fst snd]. run. rewrite app_two.
  change (seq 0 numSimulations) with (0 :: seq 1 (numSimulations - 1)).
  cbn [for_fold]. run.
  rewrite trial_run; cbn [cards strs drawn].
  - rewrite length_one_more, nth_new, nth_new2. cbv zeta. rewrite E.
    now rewrite <- app_assoc.
  - rewrite length_app; cbn [length]; lia.
  - rewrite length_one_more, length_app; cbn [length]; lia.
Qed.

Lemma calculateEquity_first_trial_fails
      (holeCards communityCards : loc) (n : Z) (h : heap)
      (hole community : list card) (e : exn) :
  decodes Card_new (nth holeCards (strs h) []) hole ->
  decodes Card_new (nth communityCards (strs h) []) community ->
  outcome (deal_fun hole community (Z.to_nat (n - 1)) (shuffled 0)) = Raise e ->
  calculateEquity Card_new evaluate shuffled holeCards communityCards n h
  = (Raise e,
     mkHeap (strs h)
            (cards h ++ hole :: community
                     :: objects (deal_fun hole community (Z.to_nat (n - 1)) (shuffled 0)))
            (drawn h ++ draws (deal_fun hole community (Z.to_nat (n - 1)) (shuffled 0)))).
Proof.
  intros Hh Hc E. apply calculateEquity_first_trial_raises; try assumption.
  unfold played. now rewrite E.
Qed.

End FirstTrial.

Lemma deal_fun_no_opponent (hole community fresh : list card)
      (hands : list card * list (list card)) :
  outcome (deal_fun hole community 0 fresh) = OK hands -> snd hands = [].
Proof.
  unfold deal_fun.
  destruct (remove_all (hole ++ community) fresh) as [[[]|e] deck1];
    [|discriminate].
  destruct (5 - length community <=? length deck1); cbn [outcome]; [|discriminate].
  destruct (4 * 0 <=? _); [|discriminate].
  intros H; inversion H. reflexivity.
Qed.

Lemma filter_all {A : Type} (f : A -> bool) (l : list A) :
  (forall x, In x l -> f x = true) -> filter f l = l.
Proof.
  induction l as [|a l IH]; intros H; cbn [filter]; [reflexivity|].
  rewrite (H a (or_introl eq_refl)). f_equal. apply IH. intros x Hx. apply H. now right.
Qed.

(** ** The exceptions of the call *)

Section Exceptions.

Variable Card_new : Z -> Z -> option card.
Variable evaluate : list card -> list card -> option Z.
Variable shuffled : nat -> list card.

Lemma convert_raises (t : string) (e : exn) :
  convertCardStrToTreys Card_new t = Raise e ->
  e = IndexError_string_index \/ e = ValueError_card_format t \/ e = TypeError.
Proof.
  unfold convertCardStrToTreys.
  destruct (index_last t) as [ch|]; [|intros H; inversion H; now left].
  destruct (dict_get rankMap (upper (slice_but_last t))) as [r|];
    [|intros H; inversion H; right; now left].
  destruct (dict_get suitMap (lower (String ch EmptyString))) as [s|];
    [|intros H; inversion H; right; now left].
  destruct (Card_new r s); [discriminate|].
  intros H; inversion H. right; now right.
Qed.

Lemma decode_all_raises (ts : list string) (e : exn) (cs : list card) :
  decode_all Card_new ts = (Raise e, cs) ->
  e = IndexError_string_index \/ (exists t, In t ts /\ e = ValueError_card_format t) \/
  e = TypeError.
Proof.
  revert cs; induction ts as [|t ts IH]; intros cs; cbn [decode_all].
  - discriminate.
  - destruct (convertCardStrToTreys Card_new t) as [c|e'] eqn:E.
    + destruct (decode_all Card_new ts) as [r cs'] eqn:D. cbn [fst snd].
      intros H; inversion H; subst r.
      destruct (IH cs' eq_refl) as [->|[(t' & Ht' & ->)| ->]]; [now left| |now right; right].
      right; left. exists t'. split; [now right | reflexivity].
    + intros H; inversion H; subst e'.
      destruct (convert_raises _ _ E) as [-> |[-> | ->]]; [now left| |now right; right].
      right; left. exists t. split; [now left | reflexivity].
Qed.

Lemma played_raises (hole community : list card) (m : nat) (i : nat) (e : exn) :
  played evaluate shuffled hole community m i = Raise e ->
  e = ValueError_list_remove \/ e = IndexError_pop_empty \/ exists k, e = KeyError k.
Proof.
  unfold played.
  destruct (deal_fun_outcomes hole community m (shuffled i))
    as [(hands & E)|[E|E]]; rewrite E.
  - intros H. destruct (showdown_raises _ _ _ _ H) as (x & _ & _ & ->). eauto.
  - intros H; inversion H; now left.
  - intros H; inversion H; right; now left.
Qed.

Lemma simulate_fun_raises (hole community : list card) (m : nat)
      (trials : list nat) :
  forall wins e,
    simulate_fun evaluate shuffled hole community m trials wins = Raise e ->
    e = ValueError_list_remove \/ e = IndexError_pop_empty \/ exists k, e = KeyError k.
Proof.
  induction trials as [|i trials IH]; intros wins e; cbn [simulate_fun].
  - discriminate.
  - destruct (played evaluate shuffled hole community m i) as [win|e'] eqn:E.
    + apply IH.
    + intros H; inversion H; subst e'. exact (played_raises _ _ _ _ _ E).
Qed.

(** Whatever the input, the call returns or raises one of six
    exceptions: the two of the codec, the [TypeError] of [Card.new],
    the [ValueError] of [remove], the [IndexError] of [draw] and the
    [KeyError] of the evaluator.  It has no other way to fail. *)
Lemma calculateEquity_exceptions
      (holeCards communityCards : loc) (n : Z) (h : heap) (e : exn) :
  fst (calculateEquity Card_new evaluate shuffled holeCards communityCards n h)
  = Raise e ->
  e = IndexError_string_index \/
  (exists t, e = ValueError_card_format t) \/
  e = TypeError \/
  e = ValueError_list_remove \/
  e = IndexError_pop_empty \/
  (exists k, e = KeyError k).
Proof.
  destruct (calculateEquity_run Card_new evaluate shuffled holeCards communityCards n h)
    as (ext & drw & E & _).
  rewrite E. cbn [fst]. unfold calculateEquity_fun.
  destruct (decode_all Card_new (nth holeCards (strs h) [])) as [[[]|e1] hole] eqn:D1.
  2:{ intros H; inversion H; subst e1.
      destruct (decode_all_raises _ _ _ D1) as [->|[(t & _ & ->)| ->]]; eauto. }
  destruct (decode_all Card_new (nth communityCards (strs h) []))
    as [[[]|e2] community] eqn:D2.
  2:{ intros H; inversion H; subst e2.
      destruct (decode_all_raises _ _ _ D2) as [->|[(t & _ & ->)| ->]]; eauto. }
  destruct (simulate_fun evaluate shuffled hole community (Z.to_nat (n - 1))
              (seq 0 numSimulations) 0%Z) as [wins|e3] eqn:S; [discriminate|].
  intros H; inversion H; subst e3.
  destruct (simulate_fun_raises _ _ _ _ _ _ S) as [-> |[-> | (k & ->)]]; eauto 7.
Qed.

End Exceptions.

(** ** The hands of a showdown *)

(** The hands of a showdown, for any library: the hero's is the hole
    cards followed by the completed board, an opponent's is four cards
    followed by the same board, and each is put to the evaluator whole,
    with an empty second argument. *)
Lemma showdown_scores_whole_hands
      (evaluate : list card -> list card -> option Z) (hole community fresh : list card)
      (m : nat) (ourHand : list card) (opponentHands : list (list card)) :
  outcome (deal_fun hole community m fresh) = OK (ourHand, opponentHands) ->
  exists board,
    ourHand = hole ++ board /\
    length board = length community + (5 - length community) /\
    Forall (fun oppHand => exists four, length four = 4 /\ oppHand = four ++ board)
           opponentHands /\
    showdown evaluate ourHand opponentHands
    = match Evaluator_evaluate evaluate (hole ++ board) [] with
      | OK ourScore => all_greater evaluate ourScore opponentHands
      | Raise e => Raise e
      end.
Proof.
  unfold deal_fun.
  destruct (remove_all (hole ++ community) fresh) as [[[]|e] deck1];
    [|discriminate].
  set (k := 5 - length community).
  destruct (k <=? length deck1) eqn:Hk; cbn [outcome]; [|discriminate].
  destruct (4 * m <=? length (skipn k deck1)) eqn:Hm; [|discriminate].
  apply Nat.leb_le in Hk. apply Nat.leb_le in Hm.
  intros H; inversion H; subst. clear H.
  exists (community ++ firstn k deck1).
  split; [reflexivity|]. split; [rewrite length_app, length_firstn; lia|].
  split; [|reflexivity].
  revert Hm. generalize (skipn k deck1) as D. generalize (community ++ firstn k deck1) as B.
  induction m as [|m IH]; intros B D Hm; cbn [opponent_hands]; constructor.
  - exists (firstn 4 D). split; [rewrite length_firstn; lia | reflexivity].
  - apply IH. rewrite length_skipn. lia.
Qed.

(** ** The codec on tokens that are not empty *)

Lemma index_last_none (s : string) : index_last s = None -> s = "".
Proof.
  induction s as [|c s IH]; [reflexivity|]. cbn [index_last].
  destruct s as [|c' s']; [discriminate|].
  intros H. apply IH in H. discriminate.
Qed.

(** A token with a last character fails with the format error exactly
    when its rank or its suit is not recognized. *)
Lemma format_error_iff (Card_new : Z -> Z -> option card) (cardStr : string) :
  convertCardStrToTreys Card_new cardStr = Raise (ValueError_card_format cardStr)
  <-> exists ch, index_last cardStr = Some ch /\
                 (dict_mem rankMap (upper (slice_but_last cardStr)) = false \/
                  dict_mem suitMap (lower (String ch EmptyString)) = false).
Proof.
  unfold convertCardStrToTreys, dict_mem. split.
  - intros H. destruct (index_last cardStr) as [ch|]; [|discriminate].
    exists ch. split; [reflexivity|].
    destruct (dict_get rankMap (upper (slice_but_last cardStr))) as [r|];
      [|now left].
    destruct (dict_get suitMap (lower (String ch EmptyString))) as [s|];
      [|now right].
    destruct (Card_new r s); discriminate.
  - intros (ch & E & H). rewrite E.
    destruct (dict_get rankMap (upper (slice_but_last cardStr))) as [r|];
      [|reflexivity].
    destruct (dict_get suitMap (lower (String ch EmptyString))) as [s|];
      [|reflexivity].
    destruct H; discriminate.
Qed.

Lemma well_formed_tokens_decode (Card_new : Z -> Z -> option card) (rank suit : string) (r s : Z) :
  In (rank, r) rankMap -> In (suit, s) suitMap ->
  let made := match Card_new r s with Some c => OK c | None => Raise TypeError end in
  convertCardStrToTreys Card_new (rank ++ suit) = made /\
  convertCardStrToTreys Card_new (lower rank ++ upper suit) = made.
Proof.
  intros Hr Hs. cbn [In rankMap suitMap] in Hr, Hs.
  repeat (destruct Hr as [Hr|Hr]; [inversion Hr; subst; clear Hr|]);
    try contradiction;
    repeat (destruct Hs as [Hs|Hs]; [inversion Hs; subst; clear Hs|]);
    try contradiction; split; reflexivity.
Qed.

Lemma malformed_tokens_rejected (Card_new : Z -> Z -> option card) :
  convertCardStrToTreys Card_new "Ax" = Raise (ValueError_card_format "Ax") /\
  convertCardStrToTreys Card_new "1s" = Raise (ValueError_card_format "1s").
Proof. split; reflexivity. Qed.

(** ** The division of the endpoint *)

(** At the endpoint the failure of the division leaves as an
    [HTTPException] with status 400 and the text of the error. *)
Lemma calculateOdds_zero_pot
      (Card_new : Z -> Z -> option card) (evaluate : list card -> list card -> option Z)
      (shuffled : nat -> list card) (str : exn -> string)
      (request : HandRequest) (h : heap) (e : Q) :
  fst (calculateEquity Card_new evaluate shuffled (holeCards request)
         (communityCards request) (numPlayers request) h) = OK e ->
  (potSize request + betToCall request == 0)%Q ->
  fst (calculateOdds Card_new evaluate shuffled str request h)
  = Raise (HTTPException 400 (str ZeroDivisionError)).
Proof.
  intros He Hz. unfold calculateOdds, try_except. rewrite run_bind.
  destruct (calculateEquity _ _ _ _ _ _ h) as [r h']. cbn [fst] in He. subst r.
  rewrite run_bind, run_lift. unfold pot_odds, true_div.
  now rewrite (Qeq_eq_bool _ _ Hz).
Qed.

(** ** Calls whose trials are all played *)

Lemma OK_inj {A : Type} (a b : A) : OK a = OK b -> a = b.
Proof. intros H. now inversion H. Qed.

Lemma played_ok_dealt
      (evaluate : list card -> list card -> option Z) (shuffled : nat -> list card)
      (hole community : list card) (m : nat) (i : nat) (win : bool) :
  played evaluate shuffled hole community m i = OK win ->
  exists hands,
    outcome (deal_fun hole community m (shuffled i)) = OK hands /\
    showdown evaluate (fst hands) (snd hands) = OK win.
Proof.
  unfold played.
  destruct (outcome (deal_fun hole community m (shuffled i))) as [hands|e];
    [|discriminate].
  intros H. now exists hands.
Qed.

Lemma simulate_fun_ok_played
      (evaluate : list card -> list card -> option Z) (shuffled : nat -> list card)
      (hole community : list card) (m : nat) (trials : list nat) :
  forall wins w,
    simulate_fun evaluate shuffled hole community m trials wins = OK w ->
    forall i, In i trials ->
      exists win, played evaluate shuffled hole community m i = OK win.
Proof.
  induction trials as [|j trials IH]; intros wins w H i Hi; [destruct Hi|].
  cbn [simulate_fun] in H.
  destruct (played evaluate shuffled hole community m j) as [win|e] eqn:E;
    [|discriminate].
  destruct Hi as [<-|Hi]; [now exists win | now apply (IH _ _ H)].
Qed.

Lemma simulate_fun_ok_inv
      (evaluate : list card -> list card -> option Z) (shuffled : nat -> list card)
      (hole community : list card) (m : nat) (trials : list nat) :
  forall wins w,
    simulate_fun evaluate shuffled hole community m trials wins = OK w ->
    forall i, In i trials ->
      exists hands, outcome (deal_fun hole community m (shuffled i)) = OK hands.
Proof.
  intros wins w H i Hi.
  destruct (simulate_fun_ok_played _ _ _ _ _ _ _ _ H i Hi) as (win & P).
  destruct (played_ok_dealt _ _ _ _ _ _ _ P) as (hands & E & _). now exists hands.
Qed.

Lemma simulate_fun_wins_of
      (evaluate : list card -> list card -> option Z) (shuffled : nat -> list card)
      (hole community : list card) (n : Z) :
  (forall i, In i (seq 0 numSimulations) ->
     exists win,
       played evaluate shuffled hole community (Z.to_nat (n - 1)) i = OK win) ->
  simulate_fun evaluate shuffled hole community (Z.to_nat (n - 1))
               (seq 0 numSimulations) 0%Z
  = OK (wins_of evaluate shuffled hole community n).
Proof.
  intros Hall. rewrite simulate_fun_all_ok by exact Hall.
  unfold wins_of. now rewrite Z.add_0_l.
Qed.



(** A call that returns has decoded its tokens and played each of its
    trials to the end; what it returns is the fraction of the trials
    won. *)
Lemma calculateEquity_ok_inv
      (Card_new : Z -> Z -> option card) (evaluate : list card -> list card -> option Z)
      (shuffled : nat -> list card) (h : heap) (holeCards communityCards : loc)
      (n : Z) (q : Q) :
  fst (calculateEquity Card_new evaluate shuffled holeCards communityCards n h) = OK q ->
  exists hole community,
    decodes Card_new (nth holeCards (strs h) []) hole /\
    decodes Card_new (nth communityCards (strs h) []) community /\
    (forall i, i < numSimulations ->
       exists win,
         played evaluate shuffled hole community (Z.to_nat (n - 1)) i = OK win) /\
    q = (inject_Z (wins_of evaluate shuffled hole community n)
         / inject_Z (Z.of_nat numSimulations))%Q.
Proof.
  destruct (calculateEquity_run Card_new evaluate shuffled holeCards communityCards n h)
    as (ext & drw & E & _).
  rewrite E. cbn [fst]. unfold calculateEquity_fun.
  destruct (decode_all Card_new (nth holeCards (strs h) [])) as [[[]|e1] hole] eqn:D1;
    [|discriminate].
  destruct (decode_all Card_new (nth communityCards (strs h) []))
    as [[[]|e2] community] eqn:D2; [|discriminate].
  destruct (simulate_fun evaluate shuffled hole community (Z.to_nat (n - 1))
              (seq 0 numSimulations) 0%Z) as [wins|e3] eqn:S; [|discriminate].
  intros H; inversion H; subst q. clear H.
  pose proof (simulate_fun_ok_played evaluate shuffled _ _ _ _ _ _ S) as Hall.
  pose proof (simulate_fun_wins_of evaluate shuffled _ _ n Hall) as W.
  rewrite S in W. apply OK_inj in W. subst wins.
  exists hole, community.
  split; [now apply decode_all_decodes|]. split; [now apply decode_all_decodes|].
  split; [|reflexivity].
  intros i Hi. apply Hall, in_seq. lia.
Qed.

(** Valid input, decks as expected, hands the evaluator scores: the
    call returns. *)
Lemma calculateEquity_returns
      (Card_new : Z -> Z -> option card) (evaluate : list card -> list card -> option Z)
      (shuffled : nat -> list card) (h : heap) (holeCards communityCards : loc)
      (n : Z) (hole community : list card) :
  (forall i, i < numSimulations -> deck_ok Card_new (shuffled i)) ->
  valid_input Card_new (nth holeCards (strs h) []) (nth communityCards (strs h) [])
              hole community n ->
  scores_dealt evaluate shuffled hole community n ->
  fst (calculateEquity Card_new evaluate shuffled holeCards communityCards n h)
  = OK (inject_Z (wins_of evaluate shuffled hole community n)
        / inject_Z (Z.of_nat numSimulations))%Q.
Proof.
  intros Hdecks (Hh & Hc & Hnd & Hfeas) Hscores.
  destruct (calculateEquity_run Card_new evaluate shuffled holeCards communityCards n h)
    as (ext & drw & E & _).
  rewrite E. cbn [fst]. now apply calculateEquity_fun_returns.
Qed.

(** Without an opponent every trial played to its end is a win. *)
Lemma wins_of_no_opponent
      (evaluate : list card -> list card -> option Z) (shuffled : nat -> list card)
      (hole community : list card) (n : Z) :
  (n <= 1)%Z ->
  (forall i, i < numSimulations ->
     exists win,
       played evaluate shuffled hole community (Z.to_nat (n - 1)) i = OK win) ->
  wins_of evaluate shuffled hole community n = Z.of_nat numSimulations.
Proof.
  intros Hn Hall. unfold wins_of. rewrite filter_all; [now rewrite length_seq|].
  intros i Hi. apply in_seq in Hi.
  destruct (Hall i) as (win & P); [lia|].
  unfold won. rewrite P.
  destruct (played_ok_dealt _ _ _ _ _ _ _ P) as (hands & E & W).
  replace (Z.to_nat (n - 1)) with 0 in E by lia.
  rewrite (deal_fun_no_opponent _ _ _ _ E) in W.
  exact (showdown_alone _ _ _ W).
Qed.

(** ** The shape of a deal *)

Lemma opponent_hands_fours (m : nat) :
  forall (D B : list card),
    opponent_hands m D B = map (fun four => four ++ B) (fours m D).
Proof.
  induction m as [|m IH]; intros D B; cbn [opponent_hands fours map]; [reflexivity|].
  now rewrite IH.
Qed.

Lemma fours_length (m : nat) : forall D, length (fours m D) = m.
Proof. induction m as [|m IH]; intros D; cbn [fours length]; [reflexivity|]. now rewrite IH. Qed.

Lemma fours_full (m : nat) :
  forall D, 4 * m <= length D ->
    Forall (fun four => length four = 4) (fours m D) /\
    concat (fours m D) = firstn (4 * m) D.
Proof.
  induction m as [|m IH]; intros D Hm; cbn [fours concat].
  - rewrite Nat.mul_0_r. split; [constructor | reflexivity].
  - destruct (IH (skipn 4 D)) as (Hf & Hc); [rewrite length_skipn; lia|].
    split.
    + constructor; [rewrite length_firstn; lia | assumption].
    + rewrite Hc. replace (4 * S m) with (4 + 4 * m) by lia.
      now rewrite firstn_add.
Qed.

(** A trial that reaches its showdown: the known cards have left the
    deck, the board is the known community cards and the cards drawn for
    it, every opponent holds four cards, and the draws are the cards of
    the board and then of the opponents, in the order of the hands. *)
Lemma deal_fun_shape (hole community : list card) (m : nat) (fresh : list card)
      (ourHand : list card) (opponentHands : list (list card)) :
  outcome (deal_fun hole community m fresh) = OK (ourHand, opponentHands) ->
  exists extra hands4 deck1,
    remove_all (hole ++ community) fresh = (OK tt, deck1) /\
    ourHand = hole ++ community ++ extra /\
    length extra = 5 - length community /\
    length hands4 = m /\
    Forall (fun four => length four = 4) hands4 /\
    opponentHands = map (fun four => four ++ community ++ extra) hands4 /\
    draws (deal_fun hole community m fresh) = extra ++ concat hands4.
Proof.
  unfold deal_fun.
  destruct (remove_all (hole ++ community) fresh) as [[[]|e] deck1] eqn:R;
    [|discriminate].
  set (k := 5 - length community).
  destruct (k <=? length deck1) eqn:Hk; cbn [outcome draws]; [|discriminate].
  destruct (4 * m <=? length (skipn k deck1)) eqn:Hm; [|discriminate].
  apply Nat.leb_le in Hk. apply Nat.leb_le in Hm.
  intros H; inversion H; subst. clear H.
  destruct (fours_full m (skipn k deck1) Hm) as (Hf & Hc).
  exists (firstn k deck1), (fours m (skipn k deck1)), deck1.
  split; [reflexivity|]. split; [reflexivity|].
  split; [rewrite length_firstn; lia|].
  split; [apply fours_length|]. split; [assumption|].
  split; [apply opponent_hands_fours | now rewrite Hc].
Qed.

(** ** The library as it behaves: what it scores *)

Module TreysFacts.

(** The decks meet the contract: [Card.new] makes no card. *)
Lemma treys_deck_ok (i : nat) : deck_ok Treys.Card_new (Treys.shuffled i).
Proof.
  destruct (SampleFacts.shuffled_ok i) as (Hnd & Hlen & _).
  split; [exact Hnd|]. split; [exact Hlen|]. intros r s c _ _ Hc. discriminate Hc.
Qed.

Lemma scores_five_to_seven (hand : list card) :
  5 <= length hand <= 7 -> exists s, Treys.evaluate hand [] = Some s.
Proof.
  intros [Hlo Hhi]. unfold Treys.evaluate. cbv zeta. rewrite app_nil_r.
  apply Nat.leb_le in Hlo. apply Nat.leb_le in Hhi. rewrite Hlo, Hhi.
  cbn [andb]. eauto.
Qed.

Lemma refuses_other_sizes (hand : list card) :
  ~ 5 <= length hand <= 7 -> Treys.evaluate hand [] = None.
Proof.
  intros H. unfold Treys.evaluate. cbv zeta. rewrite app_nil_r.
  destruct (5 <=? length hand) eqn:Hlo; [|reflexivity].
  destruct (length hand <=? 7) eqn:Hhi; [|reflexivity].
  apply Nat.leb_le in Hlo. apply Nat.leb_le in Hhi. lia.
Qed.

(** A hero without opponents who holds at most two cards has a hand of
    five to seven cards in every trial: each is scored. *)
Lemma scores_alone (shuffled : nat -> list card) (hole community : list card) (n : Z) :
  (n <= 1)%Z -> length hole <= 2 -> length community <= 5 ->
  scores_dealt Treys.evaluate shuffled hole community n.
Proof.
  intros Hn Hh Hc i [ourHand opponentHands] _ E.
  replace (Z.to_nat (n - 1)) with 0 in E by lia.
  pose proof (deal_fun_no_opponent _ _ _ _ E) as Hno. cbn [snd] in Hno. subst.
  destruct (deal_fun_shape _ _ _ _ _ _ E) as (extra & hands4 & deck1 & _ & -> & Hl & _).
  destruct (scores_five_to_seven (hole ++ community ++ extra)) as (s & Es).
  { rewrite !length_app. lia. }
  exists true. cbn [fst snd]. unfold showdown.
  now rewrite (proj2 (Evaluator_evaluate_ok _ _ _ _) Es).
Qed.

(** Two players and no known card: the opponent's hand of the first
    trial has nine cards and the call ends there. *)
Lemma nine_cards_key_error : fst (Treys.run [] [] 2) = Raise (KeyError 9).
Proof. vm_compute. reflexivity. Qed.

(** A well-formed token: the call ends at [Card.new]. *)
Lemma well_formed_token_type_error :
  Treys.run ["As"; "Ks"; "Qs"; "Js"] [] 2
  = (Raise TypeError, mkHeap [["As"; "Ks"; "Qs"; "Js"]; []] [[]] []).
Proof. vm_compute. reflexivity. Qed.

End TreysFacts.

(** * The claims *)

(** C1, at the failing input.  Hero [As Ah Ad Ac] on the board
    [2s 3h 5d 7c 9s] against one opponent, trial 0: the opponent is
    dealt [2h 2d 2c 3s].  The program puts the nine cards of each
    player to the evaluator in one call.  With a library that answers
    every call it gets 80 for the hero (four aces) and 85 for the
    opponent (four deuces), and counts a win; the best of the 60 hands
    of two hole cards and three board cards scores 112 for the hero (a
    pair of aces) and 101 for the opponent (three deuces): under the
    Omaha rule the hero loses.  With the library as it behaves the
    trial ends at the hero's nine cards, with [KeyError] on 9: in
    neither case is a hand of two hole cards and three board cards
    scored. *)
Theorem hands_scored_whole_not_by_omaha_rule :
  decode_all Sample.Card_new ["As"; "Ah"; "Ad"; "Ac"]
  = (OK tt, [56; 57; 58; 59]%Z) /\
  decode_all Sample.Card_new ["2s"; "3h"; "5d"; "7c"; "9s"]
  = (OK tt, [8; 13; 22; 31; 36]%Z) /\
  fst (deal Sample.shuffled 0 0 1 2
            (mkHeap [] [[56; 57; 58; 59]; [8; 13; 22; 31; 36]]%Z []))
  = OK ([56; 57; 58; 59; 8; 13; 22; 31; 36]%Z,
        [[9; 10; 11; 12; 8; 13; 22; 31; 36]%Z]) /\
  Sample.evaluate [56; 57; 58; 59; 8; 13; 22; 31; 36]%Z [] = Some 80%Z /\
  Sample.evaluate [9; 10; 11; 12; 8; 13; 22; 31; 36]%Z [] = Some 85%Z /\
  fst (trial Sample.evaluate Sample.shuffled 0 1 2 0 0
             (mkHeap [] [[56; 57; 58; 59]; [8; 13; 22; 31; 36]]%Z []))
  = OK 1%Z /\
  length (omaha_scores Sample.score [56; 57; 58; 59]%Z [8; 13; 22; 31; 36]%Z) = 60 /\
  omaha_best Sample.score [56; 57; 58; 59]%Z [8; 13; 22; 31; 36]%Z = Some 112%Z /\
  omaha_best Sample.score [9; 10; 11; 12]%Z [8; 13; 22; 31; 36]%Z = Some 101%Z /\
  fst (trial Treys.evaluate Treys.shuffled 0 1 2 0 0
             (mkHeap [] [[56; 57; 58; 59]; [8; 13; 22; 31; 36]]%Z []))
  = Raise (KeyError 9).
Proof. vm_compute. repeat split. Qed.





(** C4.  In a trial whose deck comes without a repeated card, the cards
    drawn are cards of that deck, no two of them are the same card, and
    none is a hole card of the hero or a known community card.  The deck
    is a new list in every trial: what a trial returns and draws depends
    on the two decoded lists and on its own deck, not on the heap earlier
    trials have left. *)
Theorem draws_fresh_and_distinct
        (shuffled : nat -> list card) (i : nat) (hT cT : loc) (n : Z) (h : heap) :
  hT < length (cards h) -> cT < length (cards h) ->
  NoDup (shuffled i) ->
  exists new,
    NoDup new /\
    (forall c, In c new ->
       In c (shuffled i) /\ ~ In c (nth hT (cards h) []) /\ ~ In c (nth cT (cards h) []))
    /\
    (forall h2, hT < length (cards h2) -> cT < length (cards h2) ->
       nth hT (cards h2) [] = nth hT (cards h) [] ->
       nth cT (cards h2) [] = nth cT (cards h) [] ->
       drawn (snd (deal shuffled i hT cT n h2)) = drawn h2 ++ new /\
       fst (deal shuffled i hT cT n h2) = fst (deal shuffled i hT cT n h)).
Proof.
  intros HhT HcT Hnd.
  set (d := deal_fun (nth hT (cards h) []) (nth cT (cards h) [])
              (Z.to_nat (n - 1)) (shuffled i)).
  destruct (deal_fun_draws (nth hT (cards h) []) (nth cT (cards h) [])
              (Z.to_nat (n - 1)) (shuffled i) Hnd) as (Hd & Hin).
  exists (draws d). split; [exact Hd|]. split.
  - intros c Hc. destruct (Hin c Hc) as (Hf & Hk).
    split; [assumption|]. split; intros Hx; apply Hk; apply in_or_app; tauto.
  - intros h2 HhT2 HcT2 E1 E2.
    rewrite !deal_run by assumption. cbv zeta. cbn [fst snd drawn].
    rewrite E1, E2. split; reflexivity.
Qed.

Lemma draws_fresh_and_distinct_witness :
  exists new,
    NoDup new /\
    (forall c, In c new ->
       In c (Sample.shuffled 3) /\ ~ In c [56; 52; 48; 44]%Z /\ ~ In c [9; 13; 42]%Z)
    /\ drawn (snd (deal Sample.shuffled 3 0 1 3
                        (mkHeap [] [[56; 52; 48; 44]; [9; 13; 42]]%Z [7%Z])))
       = [7%Z] ++ new.
Proof.
  destruct (draws_fresh_and_distinct Sample.shuffled 3 0 1 3
              (mkHeap [] [[56; 52; 48; 44]; [9; 13; 42]]%Z [7%Z]))
    as (new & Hnd & Hin & Hrun).
  - cbn. lia.
  - cbn. lia.
  - apply SampleFacts.shuffled_ok.
  - exists new. split; [exact Hnd|]. split; [exact Hin|].
    apply Hrun; [cbn; lia | cbn; lia | reflexivity | reflexivity].
Defined.

(** C5, counterexample.  With one player the request without cards
    returns an equity, 1000/1000: no error is raised. *)
Lemma single_player_returns_equity :
  fst (Treys.run [] [] 1) = OK (1000 # 1000)%Q.
Proof. vm_compute. reflexivity. Qed.

(** C5, amended.  With [numPlayers <= 1] no player count is rejected:
    a trial deals no opponent, every trial played to its end counts as
    a win of the hero, and whenever the call returns it returns the
    equity 1.  It returns when the tokens decode to distinct cards, the
    deck can serve the board and the evaluator has a score for the
    hero's hands. *)
Theorem no_opponent_equity_is_one
        (Card_new : Z -> Z -> option card) (evaluate : list card -> list card -> option Z)
        (shuffled : nat -> list card) (h : heap) (holeCards communityCards : loc)
        (n : Z) :
  (n <= 1)%Z ->
  (forall q,
     fst (calculateEquity Card_new evaluate shuffled holeCards communityCards n h)
     = OK q -> (q == 1)%Q) /\
  (forall i hT cT h1 hands,
     hT < length (cards h1) -> cT < length (cards h1) ->
     fst (deal shuffled i hT cT n h1) = OK hands -> snd hands = []) /\
  (forall hole community,
     (forall i, i < numSimulations -> deck_ok Card_new (shuffled i)) ->
     valid_input Card_new (nth holeCards (strs h) []) (nth communityCards (strs h) [])
                 hole community n ->
     scores_dealt evaluate shuffled hole community n ->
     exists q,
       fst (calculateEquity Card_new evaluate shuffled holeCards communityCards n h)
       = OK q /\ (q == 1)%Q).
Proof.
  intros Hn.
  assert (One : forall q,
             fst (calculateEquity Card_new evaluate shuffled holeCards communityCards n h)
             = OK q -> (q == 1)%Q).
  { intros q Hq.
    destruct (calculateEquity_ok_inv _ _ _ _ _ _ _ _ Hq)
      as (hole & community & _ & _ & Hall & ->).
    rewrite (wins_of_no_opponent _ _ _ _ _ Hn Hall), numSimulations_Z. reflexivity. }
  split; [exact One|]. split.
  - intros i hT cT h1 hands HhT HcT. rewrite deal_run by assumption.
    cbv zeta. cbn [fst]. replace (Z.to_nat (n - 1)) with 0 by lia.
    apply deal_fun_no_opponent.
  - intros hole community Hdecks Hvalid Hscores.
    pose proof (calculateEquity_returns _ _ _ h holeCards communityCards _ _ _
                  Hdecks Hvalid Hscores) as Hq.
    eexists. split; [exact Hq|]. exact (One _ Hq).
Qed.

Lemma no_opponent_equity_is_one_witness :
  exists q, fst (Treys.run [] [] 1) = OK q /\ (q == 1)%Q.
Proof.
  refine (proj2 (proj2 (no_opponent_equity_is_one
                          Treys.Card_new Treys.evaluate Treys.shuffled
                          (Sample.request_heap [] []) 0 1 1 _)) [] [] _ _ _).
  - lia.
  - intros i _. apply TreysFacts.treys_deck_ok.
  - split; [|split; [|split]].
    + constructor.
    + constructor.
    + constructor.
    + vm_compute. lia.
  - apply TreysFacts.scores_alone; cbn [length]; lia.
Defined.

(** C6, counterexample.  Thirteen players and no known card need 53
    cards of a deck of 52: the run does start the first trial, draws
    the 52 cards and fails in [deck.draw()] on the empty deck. *)
Lemma too_many_players_fails_mid_trial :
  fst (Treys.run [] [] 13) = Raise IndexError_pop_empty /\
  length (drawn (snd (Treys.run [] [] 13))) = 52 /\
  nth 2 (cards (snd (Treys.run [] [] 13))) [0%Z] = [].
Proof. vm_compute. repeat split. Qed.

(** C6, amended.  The player count is not checked before the trials.
    When the board and the opponents need more cards than the deck has
    left, the call fails in its first trial: the known cards are removed,
    every card left is drawn, and the next [deck.draw()] raises
    [IndexError] on the empty deck. *)
Theorem deck_exhausted_in_first_trial
        (Card_new : Z -> Z -> option card) (evaluate : list card -> list card -> option Z)
        (shuffled : nat -> list card) (h : heap) (holeCards communityCards : loc)
        (n : Z) (hole community : list card) :
  deck_ok Card_new (shuffled 0) ->
  decodes Card_new (nth holeCards (strs h) []) hole ->
  decodes Card_new (nth communityCards (strs h) []) community ->
  NoDup (hole ++ community) ->
  52 < needed community n + length (hole ++ community) ->
  exists board drw,
    calculateEquity Card_new evaluate shuffled holeCards communityCards n h
    = (Raise IndexError_pop_empty,
       mkHeap (strs h) (cards h ++ [hole; community; []; board]) (drawn h ++ drw))
    /\ length drw = 52 - length (hole ++ community).
Proof.
  intros Hdeck Hh Hc Hnd Hmore.
  pose proof Hdeck as (Hfresh & H52 & Hall).
  destruct (deal_fun_exhausts hole community (Z.to_nat (n - 1)) (shuffled 0))
    as (Eo & El & board & Eb); try assumption.
  - apply incl_app; eapply decodes_in_deck; eassumption.
  - exists board, (draws (deal_fun hole community (Z.to_nat (n - 1)) (shuffled 0))).
    split; [|exact El].
    rewrite (calculateEquity_first_trial_fails Card_new evaluate shuffled
               holeCards communityCards n h hole community _ Hh Hc Eo).
    now rewrite Eb.
Qed.

Lemma deck_exhausted_in_first_trial_witness :
  exists board drw,
    Treys.run [] [] 13
    = (Raise IndexError_pop_empty, mkHeap [[]; []] [[]; []; []; board] drw)
    /\ length drw = 52.
Proof.
  apply (deck_exhausted_in_first_trial Treys.Card_new Treys.evaluate Treys.shuffled
           (Sample.request_heap [] []) 0 1 13 [] []).
  - apply TreysFacts.treys_deck_ok.
  - constructor.
  - constructor.
  - constructor.
  - vm_compute. lia.
Defined.

(** C7, at the failing input.  The empty token fails in [cardStr[-1]]
    with [IndexError], before the format is checked: it is not the
    invalid-card-format error.  It is the only token that does so. *)
Theorem empty_token_raises_index_error (Card_new : Z -> Z -> option card) :
  convertCardStrToTreys Card_new "" = Raise IndexError_string_index /\
  (forall cardStr,
     convertCardStrToTreys Card_new cardStr = Raise IndexError_string_index
     <-> cardStr = "").
Proof.
  split; [reflexivity|]. intros cardStr. split.
  - intros H. destruct (index_last cardStr) as [ch|] eqn:E.
    + unfold convertCardStrToTreys in H. rewrite E in H.
      destruct (dict_get rankMap (upper (slice_but_last cardStr))) as [r|];
        [|discriminate].
      destruct (dict_get suitMap (lower (String ch EmptyString))) as [s|];
        [|discriminate].
      destruct (Card_new r s); discriminate.
    + now apply index_last_none.
  - intros ->. reflexivity.
Qed.

(** C8, counterexample.  A pot of -100 and a bet of 50 sum to -50: the
    pot odds are computed, -1, and nothing fails. *)
Lemma negative_pot_returns_ratio :
  exists q, pot_odds (-100) 50 = OK q /\ (q == -1)%Q.
Proof. exists (-50 # 50)%Q. split; reflexivity. Qed.

(** C8, amended.  The pot odds are [betToCall / (potSize + betToCall)]
    whenever [potSize + betToCall] is not zero, a negative sum included;
    the computation fails only when the sum is zero, with Python's
    [ZeroDivisionError].  For a pot of 100 and a bet of 50 they are
    50/150. *)
Theorem pot_odds_fail_only_on_zero (potSize betToCall : Q) :
  ((potSize + betToCall == 0)%Q /\
   pot_odds potSize betToCall = Raise ZeroDivisionError \/
   ~ (potSize + betToCall == 0)%Q /\
   pot_odds potSize betToCall = OK (betToCall / (potSize + betToCall))%Q) /\
  pot_odds 100 50 = OK (50 # 150)%Q.
Proof.
  split; [|reflexivity].
  unfold pot_odds, true_div.
  destruct (Qeq_bool (potSize + betToCall) 0) eqn:E.
  - left. split; [now apply Qeq_bool_eq | reflexivity].
  - right. split; [now apply Qeq_bool_neq | reflexivity].
Qed.




(** C10.  [calculateEquity] changes no list that exists when it is
    called, the caller's two lists of tokens among them, whatever it
    returns or raises.  The two decoded lists it builds hold, when it
    ends, the cards of the caller's tokens in the caller's order.  A
    trial changes no list that exists when it starts, so the decoded
    lists are the same at the start of every trial: the board of a trial
    is a copy, and the draws are appended to the copy. *)
Theorem caller_lists_never_mutated
        (Card_new : Z -> Z -> option card) (evaluate : list card -> list card -> option Z)
        (shuffled : nat -> list card) (h : heap) (holeCards communityCards : loc)
        (n : Z) :
  strs (snd (calculateEquity Card_new evaluate shuffled holeCards communityCards n h))
  = strs h /\
  (forall l, l < length (cards h) ->
     nth l (cards (snd (calculateEquity Card_new evaluate shuffled
                          holeCards communityCards n h))) []
     = nth l (cards h) []) /\
  (forall hole community,
     decodes Card_new (nth holeCards (strs h) []) hole ->
     decodes Card_new (nth communityCards (strs h) []) community ->
     nth (length (cards h))
         (cards (snd (calculateEquity Card_new evaluate shuffled
                        holeCards communityCards n h))) [] = hole /\
     nth (S (length (cards h)))
         (cards (snd (calculateEquity Card_new evaluate shuffled
                        holeCards communityCards n h))) [] = community) /\
  (forall hT cT i wins h1,
     hT < length (cards h1) -> cT < length (cards h1) ->
     strs (snd (trial evaluate shuffled hT cT n i wins h1)) = strs h1 /\
     forall l, l < length (cards h1) ->
       nth l (cards (snd (trial evaluate shuffled hT cT n i wins h1))) []
       = nth l (cards h1) []).
Proof.
  destruct (calculateEquity_run Card_new evaluate shuffled holeCards communityCards n h)
    as (ext & drw & E & Hdec).
  rewrite E. cbn [snd strs cards].
  split; [reflexivity|]. split; [intros l Hl; now apply nth_old|]. split.
  - intros hole community Hh Hc.
    apply decode_all_decodes in Hh. apply decode_all_decodes in Hc.
    destruct (Hdec hole community Hh Hc) as (ext' & ->).
    now rewrite nth_new, nth_new2.
  - intros hT cT i wins h1 HhT HcT.
    rewrite trial_run by assumption. cbv zeta. cbn [snd strs cards].
    split; [reflexivity|]. intros l Hl. now apply nth_old.
Qed.

Lemma caller_lists_never_mutated_witness :
  strs (snd (Sample.run ["As"; "Ah"; "Qs"; "Js"] ["2h"; "3h"; "10d"] 3))
  = [["As"; "Ah"; "Qs"; "Js"]; ["2h"; "3h"; "10d"]] /\
  nth 0 (cards (snd (Sample.run ["As"; "Ah"; "Qs"; "Js"] ["2h"; "3h"; "10d"] 3))) []
  = [56; 57; 48; 44]%Z /\
  nth 1 (cards (snd (Sample.run ["As"; "Ah"; "Qs"; "Js"] ["2h"; "3h"; "10d"] 3))) []
  = [9; 13; 42]%Z.
Proof.
  destruct (caller_lists_never_mutated Sample.Card_new Sample.evaluate Sample.shuffled
              (Sample.request_heap ["As"; "Ah"; "Qs"; "Js"] ["2h"; "3h"; "10d"]) 0 1 3)
    as (Hs & _ & Hd & _).
  split; [exact Hs|].
  apply (Hd [56; 57; 48; 44]%Z [9; 13; 42]%Z); repeat constructor.
Defined.

(** * Further properties *)

(** ** Case and length of tokens *)

Lemma upper_char_idem (c : ascii) : upper_char (upper_char c) = upper_char c.
Proof. destruct c as [[] [] [] [] [] [] [] []]; reflexivity. Qed.

Lemma lower_char_idem (c : ascii) : lower_char (lower_char c) = lower_char c.
Proof. destruct c as [[] [] [] [] [] [] [] []]; reflexivity. Qed.

Lemma lower_upper_char (c : ascii) : lower_char (upper_char c) = lower_char c.
Proof. destruct c as [[] [] [] [] [] [] [] []]; reflexivity. Qed.

Lemma upper_lower_char (c : ascii) : upper_char (lower_char c) = upper_char c.
Proof. destruct c as [[] [] [] [] [] [] [] []]; reflexivity. Qed.

Lemma upper_idem (s : string) : upper (upper s) = upper s.
Proof. induction s as [|c s IH]; cbn [upper]; [reflexivity|]. now rewrite upper_char_idem, IH. Qed.

Lemma upper_lower (s : string) : upper (lower s) = upper s.
Proof. induction s as [|c s IH]; cbn [upper lower]; [reflexivity|]. now rewrite upper_lower_char, IH. Qed.

Lemma upper_length (s : string) : String.length (upper s) = String.length s.
Proof. induction s as [|c s IH]; cbn [upper String.length]; congruence. Qed.

Lemma slice_upper (s : string) : slice_but_last (upper s) = upper (slice_but_last s).
Proof.
  induction s as [|c s IH]; [reflexivity|].
  destruct s as [|c' s']; [reflexivity|].
  cbn [upper slice_but_last] in *. now rewrite IH.
Qed.

Lemma slice_lower (s : string) : slice_but_last (lower s) = lower (slice_but_last s).
Proof.
  induction s as [|c s IH]; [reflexivity|].
  destruct s as [|c' s']; [reflexivity|].
  cbn [lower slice_but_last] in *. now rewrite IH.
Qed.

Lemma index_last_upper (s : string) :
  index_last (upper s) = option_map upper_char (index_last s).
Proof.
  induction s as [|c s IH]; [reflexivity|].
  destruct s as [|c' s']; [reflexivity|].
  cbn [upper index_last] in *. exact IH.
Qed.

Lemma index_last_lower (s : string) :
  index_last (lower s) = option_map lower_char (index_last s).
Proof.
  induction s as [|c s IH]; [reflexivity|].
  destruct s as [|c' s']; [reflexivity|].
  cbn [lower index_last] in *. exact IH.
Qed.

Lemma slice_length (s : string) (ch : ascii) :
  index_last s = Some ch -> String.length s = S (String.length (slice_but_last s)).
Proof.
  induction s as [|c s IH]; [discriminate|].
  destruct s as [|c' s']; [reflexivity|].
  cbn [index_last slice_but_last String.length] in *. intros H. now rewrite (IH H).
Qed.

Lemma slice_and_last (s : string) (ch : ascii) :
  index_last s = Some ch -> s = (slice_but_last s ++ String ch EmptyString)%string.
Proof.
  induction s as [|c s IH]; [discriminate|].
  destruct s as [|c' s'].
  - intros H; inversion H. reflexivity.
  - cbn [index_last slice_but_last append] in *. intros H. now rewrite <- (IH H).
Qed.

Lemma upper_append (s t : string) :
  upper (s ++ t)%string = (upper s ++ upper t)%string.
Proof. induction s as [|c s IH]; cbn [upper append]; [reflexivity|]. now rewrite IH. Qed.

Lemma dict_get_some {V : Type} (d : list (string * V)) (k : string) (v : V) :
  dict_get d k = Some v -> In (k, v) d.
Proof.
  induction d as [|[k' v'] d IH]; cbn [dict_get In]; [discriminate|].
  destruct (String.eqb_spec k k') as [->|Hne].
  - intros H; inversion H. now left.
  - intros H. right. now apply IH.
Qed.

(** The values of a dict without repeated values name their keys. *)
Lemma dict_key_of_value {V : Type} (d : list (string * V)) (k1 k2 : string) (v : V) :
  NoDup (map snd d) -> In (k1, v) d -> In (k2, v) d -> k1 = k2.
Proof.
  induction d as [|[k' v'] d IH]; cbn [map snd In]; [intros _ []|].
  intros Hnd H1 H2. inversion Hnd as [|? ? Hv Hd]; subst.
  destruct H1 as [H1|H1], H2 as [H2|H2].
  - congruence.
  - inversion H1; subst. exfalso. apply Hv. now apply (in_map snd) in H2.
  - inversion H2; subst. exfalso. apply Hv. now apply (in_map snd) in H1.
  - now apply IH.
Qed.

Section Tokens.

Variable Card_new : Z -> Z -> option card.

(** What a decoded token was made of. *)
Lemma convert_ok_keys (t : string) (c : card) :
  convertCardStrToTreys Card_new t = OK c ->
  exists ch r s,
    index_last t = Some ch /\
    In (upper (slice_but_last t), r) rankMap /\
    In (String (lower_char ch) EmptyString, s) suitMap /\
    Card_new r s = Some c.
Proof.
  unfold convertCardStrToTreys.
  destruct (index_last t) as [ch|]; [|discriminate].
  destruct (dict_get rankMap (upper (slice_but_last t))) as [r|] eqn:Er; [|discriminate].
  destruct (dict_get suitMap (lower (String ch EmptyString))) as [s|] eqn:Es;
    [|discriminate].
  destruct (Card_new r s) as [c'|] eqn:Ec; [|discriminate].
  intros H; inversion H; subst c'. exists ch, r, s.
  split; [reflexivity|]. split; [now apply dict_get_some|].
  split; [now apply dict_get_some in Es | exact Ec].
Qed.

(** The codec reads a token through its key only. *)
Lemma convert_by_key (t t' : string) (c : card) :
  token_key t = token_key t' ->
  convertCardStrToTreys Card_new t = OK c ->
  convertCardStrToTreys Card_new t' = OK c.
Proof.
  unfold token_key, convertCardStrToTreys. intros K.
  inversion K as [[Kr Ks]]. rewrite Kr.
  destruct (index_last t) as [ch|]; [|discriminate].
  destruct (index_last t') as [ch'|]; [|discriminate].
  cbn [option_map lower] in *. inversion Ks as [Kc]. rewrite <- ?Kc.
  destruct (dict_get rankMap (upper (slice_but_last t'))) as [r|]; [|discriminate].
  destruct (dict_get suitMap (String (lower_char ch) EmptyString)) as [s|];
    [auto | discriminate].
Qed.

Lemma token_key_upper (t : string) : token_key (upper t) = token_key t.
Proof.
  unfold token_key. rewrite slice_upper, upper_idem, index_last_upper.
  destruct (index_last t) as [ch|]; cbn [option_map]; [|reflexivity].
  now rewrite lower_upper_char.
Qed.

Lemma token_key_lower (t : string) : token_key (lower t) = token_key t.
Proof.
  unfold token_key. rewrite slice_lower, upper_lower, index_last_lower.
  destruct (index_last t) as [ch|]; cbn [option_map]; [|reflexivity].
  now rewrite lower_char_idem.
Qed.

End Tokens.

(** X1.  On ASCII tokens the codec does not tell the cases of letters
    apart: a token, the token in upper case and the token in lower case
    decode to the same card, or none of the three decodes. *)
Theorem decoding_ignores_case (Card_new : Z -> Z -> option card) (cardStr : string) (c : card) :
  is_ascii cardStr = true ->
  (convertCardStrToTreys Card_new (upper cardStr) = OK c
   <-> convertCardStrToTreys Card_new cardStr = OK c) /\
  (convertCardStrToTreys Card_new (lower cardStr) = OK c
   <-> convertCardStrToTreys Card_new cardStr = OK c).
Proof.
  intros _. split; split; apply convert_by_key;
    auto using token_key_upper, token_key_lower, eq_sym.
Qed.

Lemma decoding_ignores_case_witness :
  (convertCardStrToTreys Sample.Card_new (upper "aS") = OK 56%Z
   <-> convertCardStrToTreys Sample.Card_new "aS" = OK 56%Z) /\
  (convertCardStrToTreys Sample.Card_new (lower "aS") = OK 56%Z
   <-> convertCardStrToTreys Sample.Card_new "aS" = OK 56%Z).
Proof.
  apply (decoding_ignores_case Sample.Card_new "aS" 56%Z). reflexivity.
Defined.

(** X2.  A token that decodes has two characters, or three, and then it
    is a ten; its card is [Card.new] of a rank from 2 to 14 and a suit
    from 0 to 3.  So a token of one character, or of four and more, is
    never accepted. *)
Theorem decoded_token_shape (Card_new : Z -> Z -> option card) (cardStr : string) (c : card) :
  convertCardStrToTreys Card_new cardStr = OK c ->
  exists r s,
    Card_new r s = Some c /\ (2 <= r <= 14)%Z /\ (0 <= s <= 3)%Z /\
    (String.length cardStr = 2 \/ String.length cardStr = 3 /\ r = 10%Z).
Proof.
  intros H. destruct (convert_ok_keys Card_new _ _ H) as (ch & r & s & El & Hr & Hs & Ec).
  exists r, s. split; [exact Ec|].
  rewrite (slice_length _ _ El), <- (upper_length (slice_but_last cardStr)).
  cbn [In rankMap suitMap] in Hr, Hs.
  split; [|split].
  - repeat (destruct Hr as [Hr|Hr]; [inversion Hr; lia|]). contradiction.
  - repeat (destruct Hs as [Hs|Hs]; [inversion Hs; lia|]). contradiction.
  - repeat (destruct Hr as [Hr|Hr];
            [injection Hr as Hk Hv; rewrite <- Hk; subst r; cbn [String.length];
             solve [now left | now right]|]).
    contradiction.
Qed.

Lemma decoded_token_shape_witness :
  exists r s,
    Sample.Card_new r s = Some 42%Z /\ (2 <= r <= 14)%Z /\ (0 <= s <= 3)%Z /\
    (String.length "10d" = 2 \/ String.length "10d" = 3 /\ r = 10%Z).
Proof.
  apply (decoded_token_shape Sample.Card_new "10d" 42%Z). reflexivity.
Defined.

(** X3.  When [Card.new] gives different cards for different ranks and
    suits, two tokens of one card are the same token up to the case of
    their letters: the codec loses nothing but the case. *)
Theorem same_card_same_token (Card_new : Z -> Z -> option card) (t1 t2 : string) (c : card) :
  (forall r s r' s', In r ranks -> In s suits -> In r' ranks -> In s' suits ->
                     Card_new r s = Some c -> Card_new r' s' = Some c ->
                     r = r' /\ s = s') ->
  convertCardStrToTreys Card_new t1 = OK c ->
  convertCardStrToTreys Card_new t2 = OK c ->
  upper t1 = upper t2.
Proof.
  intros Hinj H1 H2.
  destruct (convert_ok_keys Card_new _ _ H1) as (ch1 & r1 & s1 & E1 & Hr1 & Hs1 & C1).
  destruct (convert_ok_keys Card_new _ _ H2) as (ch2 & r2 & s2 & E2 & Hr2 & Hs2 & C2).
  destruct (Hinj r1 s1 r2 s2) as (-> & ->); try congruence;
    try (unfold ranks; now apply (in_map snd) in Hr1);
    try (unfold ranks; now apply (in_map snd) in Hr2);
    try (unfold suits; now apply (in_map snd) in Hs1);
    try (unfold suits; now apply (in_map snd) in Hs2).
  assert (Kr : upper (slice_but_last t1) = upper (slice_but_last t2)).
  { apply (dict_key_of_value rankMap _ _ r2); [|assumption|assumption].
    cbn. distinct_cards. }
  assert (Ks : String (lower_char ch1) EmptyString = String (lower_char ch2) EmptyString).
  { apply (dict_key_of_value suitMap _ _ s2); [|assumption|assumption].
    cbn. distinct_cards. }
  inversion Ks as [Kc].
  rewrite (slice_and_last _ _ E1), (slice_and_last _ _ E2), !upper_append, Kr.
  cbn [upper]. now rewrite <- (upper_lower_char ch1), <- (upper_lower_char ch2), Kc.
Qed.

Lemma same_card_same_token_witness : upper "10H" = upper "10h".
Proof.
  apply (same_card_same_token Sample.Card_new "10H" "10h" 41%Z).
  - unfold Sample.Card_new, Sample.card_of. intros r s r' s' Hr Hs Hr' Hs' E E'.
    assert (E1 : (4 * r + s = 41)%Z) by congruence.
    assert (E2 : (4 * r' + s' = 41)%Z) by congruence.
    cbn in Hs, Hs'. lia.
  - reflexivity.
  - reflexivity.
Defined.

(** ** Malformed tokens in a call *)

Section BadTokens.

Variable Card_new : Z -> Z -> option card.
Variable evaluate : list card -> list card -> option Z.
Variable shuffled : nat -> list card.

Lemma decode_all_good (ts : list string) :
  Forall (decodable Card_new) ts ->
  exists cs, decode_all Card_new ts = (OK tt, cs) /\ length cs = length ts.
Proof.
  induction 1 as [|t ts (c & Hc) _ (cs & E & L)]; cbn [decode_all].
  - now exists [].
  - rewrite Hc, E. cbn [fst snd]. exists (c :: cs). cbn [length]. now rewrite L.
Qed.

(** Decoding stops at the first token that does not decode and raises
    what the codec raises for it. *)
Lemma decode_all_first_bad (pre post : list string) (t : string) (e : exn) :
  Forall (decodable Card_new) pre ->
  convertCardStrToTreys Card_new t = Raise e ->
  exists cs, decode_all Card_new (pre ++ t :: post) = (Raise e, cs) /\
             length cs = length pre.
Proof.
  intros Hpre Ht. induction Hpre as [|p pre (c & Hc) _ (cs & E & L)];
    cbn [app decode_all].
  - rewrite Ht. now exists [].
  - rewrite Hc, E. cbn [fst snd]. exists (c :: cs). cbn [length]. now rewrite L.
Qed.

Lemma decode_all_failure (ts : list string) (e : exn) (cs : list card) :
  decode_all Card_new ts = (Raise e, cs) ->
  exists pre t post,
    ts = pre ++ t :: post /\ Forall (decodable Card_new) pre /\
    convertCardStrToTreys Card_new t = Raise e.
Proof.
  revert cs; induction ts as [|t ts IH]; intros cs; cbn [decode_all].
  - discriminate.
  - destruct (convertCardStrToTreys Card_new t) as [c|e'] eqn:E.
    + destruct (decode_all Card_new ts) as [r cs'] eqn:D. cbn [fst snd].
      intros H; inversion H; subst r.
      destruct (IH cs' eq_refl) as (pre & t' & post & -> & Hpre & Ht').
      exists (t :: pre), t', post. split; [reflexivity|]. split; [|assumption].
      constructor; [now exists c | assumption].
    + intros H; inversion H; subst e'.
      exists [], t, ts. split; [reflexivity|]. split; [constructor | assumption].
Qed.

Lemma decodes_decodable (ts : list string) (cs : list card) :
  decodes Card_new ts cs -> Forall (decodable Card_new) ts.
Proof.
  unfold decodes. induction 1 as [|t c ts cs Hc _ IH]; [constructor|].
  constructor; [now exists c | assumption].
Qed.

(** The heap of a call that stops in the codec: one or two lists have
    been added, with the cards decoded so far. *)
Lemma calculateEquity_bad_hole
      (holeCards communityCards : loc) (n : Z) (h : heap) (e : exn) (cs : list card) :
  decode_all Card_new (nth holeCards (strs h) []) = (Raise e, cs) ->
  calculateEquity Card_new evaluate shuffled holeCards communityCards n h
  = (Raise e, mkHeap (strs h) (cards h ++ [cs]) (drawn h)).
Proof.
  intros D. unfold calculateEquity. rewrite try_except_id. run.
  rewrite convert_all_run. cbv zeta. now rewrite D.
Qed.

Lemma calculateEquity_bad_community
      (holeCards communityCards : loc) (n : Z) (h : heap) (e : exn)
      (hole cs : list card) :
  decode_all Card_new (nth holeCards (strs h) []) = (OK tt, hole) ->
  decode_all Card_new (nth communityCards (strs h) []) = (Raise e, cs) ->
  calculateEquity Card_new evaluate shuffled holeCards communityCards n h
  = (Raise e, mkHeap (strs h) (cards h ++ [hole; cs]) (drawn h)).
Proof.
  intros D1 D2. unfold calculateEquity. rewrite try_except_id. run.
  rewrite convert_all_run. cbv zeta. rewrite D1. cbn [fst snd]. run.
  rewrite convert_all_run. cbv zeta. cbn [strs cards drawn]. rewrite D2.
  cbn [fst snd]. now rewrite app_two.
Qed.

End BadTokens.

(** X5.  Tokens are decoded in order, the hole cards first and then the
    community cards, and the first token that does not decode ends the
    call with the exception the codec raises for it.  This happens before
    the simulation: no deck is built and no card is drawn; the call has
    only added its one or two lists of decoded cards, which hold the
    cards of the tokens before the bad one. *)
Theorem first_bad_token_ends_call
        (Card_new : Z -> Z -> option card) (evaluate : list card -> list card -> option Z)
        (shuffled : nat -> list card) (h : heap) (holeCards communityCards : loc)
        (n : Z) (pre post : list string) (t : string) (e : exn) :
  nth holeCards (strs h) [] ++ nth communityCards (strs h) [] = pre ++ t :: post ->
  Forall (decodable Card_new) pre ->
  convertCardStrToTreys Card_new t = Raise e ->
  exists decoded,
    calculateEquity Card_new evaluate shuffled holeCards communityCards n h
    = (Raise e, mkHeap (strs h) (cards h ++ decoded) (drawn h)) /\
    length decoded <= 2 /\
    length (concat decoded) = length pre.
Proof.
  intros Hsplit Hpre Ht.
  apply app_eq_app in Hsplit. destruct Hsplit as (l & [(Eh & Ec)|(Ep & Ec)]).
  - destruct l as [|t' l']; cbn [app] in Ec.
    + (* the bad token is the first community token *)
      rewrite app_nil_r in Eh.
      destruct (decode_all_good Card_new _ Hpre) as (hole & Dh & Lh).
      destruct (decode_all_first_bad Card_new [] post t e (Forall_nil _) Ht)
        as (cs & Dc & Lc).
      exists [hole; cs]. split; [|split].
      * apply calculateEquity_bad_community; [now rewrite Eh | now rewrite <- Ec].
      * cbn. lia.
      * cbn [concat]. rewrite !length_app, Lh, Lc. cbn. lia.
    + (* the bad token is a hole token *)
      inversion Ec; subst t' post.
      destruct (decode_all_first_bad Card_new pre l' t e Hpre Ht) as (cs & Dh & Lh).
      exists [cs]. split; [|split].
      * apply calculateEquity_bad_hole. now rewrite Eh.
      * cbn. lia.
      * cbn [concat]. now rewrite app_nil_r.
  - (* the bad token is a later community token *)
    subst pre. apply Forall_app in Hpre. destruct Hpre as (Hh & Hl).
    destruct (decode_all_good Card_new _ Hh) as (hole & Dh & Lh).
    destruct (decode_all_first_bad Card_new l post t e Hl Ht) as (cs & Dc & Lc).
    exists [hole; cs]. split; [|split].
    + apply calculateEquity_bad_community; [assumption | now rewrite Ec].
    + cbn. lia.
    + cbn [concat]. rewrite !length_app, Lh, Lc. cbn. lia.
Qed.

Lemma first_bad_token_ends_call_witness :
  exists decoded,
    Sample.run ["As"; "Kh"] ["2d"; "1s"; ""] 2
    = (Raise (ValueError_card_format "1s"),
       mkHeap [["As"; "Kh"]; ["2d"; "1s"; ""]] decoded []) /\
    length decoded <= 2 /\
    length (concat decoded) = 3.
Proof.
  apply (first_bad_token_ends_call Sample.Card_new Sample.evaluate Sample.shuffled
           (Sample.request_heap ["As"; "Kh"] ["2d"; "1s"; ""]) 0 1 2
           ["As"; "Kh"; "2d"] [""] "1s").
  - reflexivity.
  - repeat constructor; eexists; reflexivity.
  - reflexivity.
Defined.

(** ** How a call ends *)

Lemma index_error_means_empty (Card_new : Z -> Z -> option card) (t : string) :
  convertCardStrToTreys Card_new t = Raise IndexError_string_index -> t = "".
Proof.
  unfold convertCardStrToTreys.
  destruct (index_last t) as [ch|] eqn:E; [|intros _; now apply index_last_none].
  destruct (dict_get rankMap (upper (slice_but_last t))) as [r|]; [|discriminate].
  destruct (dict_get suitMap (lower (String ch EmptyString))) as [s|]; [|discriminate].
  destruct (Card_new r s); discriminate.
Qed.

(** [TypeError] leaves the codec for a token of a recognized rank and
    suit that [Card.new] refuses. *)
Lemma type_error_means_refused (Card_new : Z -> Z -> option card) (t : string) :
  convertCardStrToTreys Card_new t = Raise TypeError ->
  exists ch r s,
    index_last t = Some ch /\
    dict_get rankMap (upper (slice_but_last t)) = Some r /\
    dict_get suitMap (lower (String ch EmptyString)) = Some s /\
    Card_new r s = None.
Proof.
  unfold convertCardStrToTreys.
  destruct (index_last t) as [ch|] eqn:E; [|discriminate].
  destruct (dict_get rankMap (upper (slice_but_last t))) as [r|] eqn:Er;
    [|discriminate].
  destruct (dict_get suitMap (lower (String ch EmptyString))) as [s|] eqn:Es;
    [|discriminate].
  destruct (Card_new r s) eqn:Ec; [discriminate|].
  intros _. exists ch, r, s. repeat split; assumption.
Qed.

(** X4.  A call of [calculateEquity] can fail in two ways only.  Either
    a token of the request does not decode: the exception is the one of
    the first such token, [IndexError] for the empty token, the format
    [ValueError] for a token whose rank or suit is not recognized, and
    [TypeError] for a token of a recognized rank and suit that
    [Card.new] refuses.  Or every token decodes and the exception is
    the [ValueError] of [deck.cards.remove], the [IndexError] of
    [deck.draw()] or the [KeyError] of the evaluator on the number of
    cards of a hand.  No other exception leaves the call. *)
Theorem call_failure_modes
        (Card_new : Z -> Z -> option card) (evaluate : list card -> list card -> option Z)
        (shuffled : nat -> list card) (h : heap) (holeCards communityCards : loc)
        (n : Z) (e : exn) :
  fst (calculateEquity Card_new evaluate shuffled holeCards communityCards n h)
  = Raise e ->
  (exists pre t post,
     nth holeCards (strs h) [] ++ nth communityCards (strs h) [] = pre ++ t :: post /\
     Forall (decodable Card_new) pre /\
     convertCardStrToTreys Card_new t = Raise e /\
     (t = "" /\ e = IndexError_string_index \/
      t <> "" /\ e = ValueError_card_format t \/
      t <> "" /\ e = TypeError /\
      exists r s, In r ranks /\ In s suits /\ Card_new r s = None)) \/
  ((e = ValueError_list_remove \/ e = IndexError_pop_empty \/ exists k, e = KeyError k) /\
   exists hole community,
     decodes Card_new (nth holeCards (strs h) []) hole /\
     decodes Card_new (nth communityCards (strs h) []) community).
Proof.
  destruct (calculateEquity_run Card_new evaluate shuffled holeCards communityCards n h)
    as (ext & drw & E & _).
  rewrite E. cbn [fst]. unfold calculateEquity_fun.
  assert (Kind : forall t, convertCardStrToTreys Card_new t = Raise e ->
                 t = "" /\ e = IndexError_string_index \/
                 t <> "" /\ e = ValueError_card_format t \/
                 t <> "" /\ e = TypeError /\
                 exists r s, In r ranks /\ In s suits /\ Card_new r s = None).
  { intros t Ht. destruct (convert_raises Card_new t e Ht) as [->|[->| ->]].
    - left. split; [now apply (index_error_means_empty Card_new) | reflexivity].
    - right; left. split; [|reflexivity]. intros ->. discriminate.
    - right; right. split; [intros ->; discriminate|]. split; [reflexivity|].
      destruct (type_error_means_refused Card_new t Ht) as (ch & r & s & _ & Er & Es & En).
      exists r, s. split; [now apply dict_get_in in Er|].
      split; [now apply dict_get_in in Es | exact En]. }
  destruct (decode_all Card_new (nth holeCards (strs h) [])) as [[[]|e1] hole] eqn:D1.
  2:{ intros H; inversion H; subst e1. left.
      destruct (decode_all_failure Card_new _ _ _ D1) as (pre & t & post & Eh & Hpre & Ht).
      exists pre, t, (post ++ nth communityCards (strs h) []).
      rewrite Eh, <- app_assoc. auto. }
  apply decode_all_decodes in D1.
  destruct (decode_all Card_new (nth communityCards (strs h) []))
    as [[[]|e2] community] eqn:D2.
  2:{ intros H; inversion H; subst e2. left.
      destruct (decode_all_failure Card_new _ _ _ D2) as (pre & t & post & Ec & Hpre & Ht).
      exists (nth holeCards (strs h) [] ++ pre), t, post.
      rewrite Ec, <- app_assoc. split; [reflexivity|]. split; [|auto].
      apply Forall_app. split; [now apply (decodes_decodable Card_new _ hole) | assumption]. }
  apply decode_all_decodes in D2.
  destruct (simulate_fun evaluate shuffled hole community (Z.to_nat (n - 1))
              (seq 0 numSimulations) 0%Z) as [wins|e3] eqn:S; [discriminate|].
  intros H; inversion H; subst e3. right.
  split; [exact (simulate_fun_raises evaluate shuffled _ _ _ _ _ _ S) | eauto].
Qed.

Lemma call_failure_modes_witness :
  (exists pre t post,
     ["As"; "Kh"] ++ ["2d"] = pre ++ t :: post /\
     Forall (decodable Treys.Card_new) pre /\
     convertCardStrToTreys Treys.Card_new t = Raise TypeError /\
     (t = "" /\ TypeError = IndexError_string_index \/
      t <> "" /\ TypeError = ValueError_card_format t \/
      t <> "" /\ TypeError = TypeError /\
      exists r s, In r ranks /\ In s suits /\ Treys.Card_new r s = None)) \/
  ((TypeError = ValueError_list_remove \/ TypeError = IndexError_pop_empty \/
    exists k, TypeError = KeyError k) /\
   exists hole community,
     decodes Treys.Card_new ["As"; "Kh"] hole /\
     decodes Treys.Card_new ["2d"] community).
Proof.
  apply (call_failure_modes Treys.Card_new Treys.evaluate Treys.shuffled
           (Sample.request_heap ["As"; "Kh"] ["2d"]) 0 1 2).
  vm_compute. reflexivity.
Defined.

(** X6.  Whenever [calculateEquity] returns, whatever the input and
    the decks: every token has decoded, each of the 1000 trials has
    reached its showdown, and the value returned is the number of trials
    won divided by 1000, a number between 0 and 1. *)
Theorem returned_equity_is_a_fraction
        (Card_new : Z -> Z -> option card) (evaluate : list card -> list card -> option Z)
        (shuffled : nat -> list card) (h : heap) (holeCards communityCards : loc)
        (n : Z) (q : Q) :
  fst (calculateEquity Card_new evaluate shuffled holeCards communityCards n h) = OK q ->
  exists hole community,
    decodes Card_new (nth holeCards (strs h) []) hole /\
    decodes Card_new (nth communityCards (strs h) []) community /\
    (forall i, i < numSimulations ->
       exists hands,
         fst (deal shuffled i 0 1 n (mkHeap [] [hole; community] [])) = OK hands) /\
    q = (inject_Z (wins_of evaluate shuffled hole community n)
         / inject_Z (Z.of_nat numSimulations))%Q /\
    (0 <= q <= 1)%Q.
Proof.
  destruct (calculateEquity_run Card_new evaluate shuffled holeCards communityCards n h)
    as (ext & drw & E & _).
  rewrite E. cbn [fst]. unfold calculateEquity_fun.
  destruct (decode_all Card_new (nth holeCards (strs h) [])) as [[[]|e1] hole] eqn:D1;
    [|discriminate].
  destruct (decode_all Card_new (nth communityCards (strs h) []))
    as [[[]|e2] community] eqn:D2; [|discriminate].
  destruct (simulate_fun evaluate shuffled hole community (Z.to_nat (n - 1))
              (seq 0 numSimulations) 0%Z) as [wins|e3] eqn:S; [|discriminate].
  intros H; inversion H; subst q. clear H.
  pose proof (simulate_fun_ok_inv evaluate shuffled _ _ _ _ _ _ S) as Hall.
  pose proof (simulate_fun_ok_played evaluate shuffled _ _ _ _ _ _ S) as Hplayed.
  pose proof (simulate_fun_wins_of evaluate shuffled _ _ n Hplayed) as W.
  rewrite S in W. apply OK_inj in W. subst wins.
  exists hole, community.
  split; [now apply decode_all_decodes|]. split; [now apply decode_all_decodes|].
  split; [|split; [reflexivity | apply win_fraction_bounds, wins_of_bounds]].
  intros i Hi. rewrite deal_run by (cbn; lia). cbv zeta. cbn [fst cards nth].
  apply Hall, in_seq. lia.
Qed.

Lemma returned_equity_is_a_fraction_witness :
  exists hole community,
    decodes Sample.Card_new ["As"; "Ks"; "Qs"] hole /\
    decodes Sample.Card_new [] community /\
    (forall i, i < numSimulations ->
       exists hands,
         fst (deal Sample.shuffled i 0 1 2 (mkHeap [] [hole; community] [])) = OK hands) /\
    (539 # 1000)%Q = (inject_Z (wins_of Sample.evaluate Sample.shuffled hole community 2)
                      / inject_Z (Z.of_nat numSimulations))%Q /\
    (0 <= 539 # 1000 <= 1)%Q.
Proof.
  apply (returned_equity_is_a_fraction Sample.Card_new Sample.evaluate Sample.shuffled
           (Sample.request_heap ["As"; "Ks"; "Qs"] []) 0 1 2).
  vm_compute. reflexivity.
Defined.



(** ** The hands of a trial *)

(** X7.  In a trial that reaches its showdown the hero's hand is the
    hole cards, the known community cards and the cards drawn for the
    board, in this order; the board is drawn up to five cards and not at
    all when five or more are known.  There is one opponent hand for each
    of the [numPlayers - 1] opponents, none when [numPlayers < 2]: four
    cards of its own and then the same board.  The trial has drawn the
    cards of the board and then of the opponents, in this order, and no
    other card. *)
Theorem hands_of_a_trial
        (shuffled : nat -> list card) (i : nat) (hT cT : loc) (n : Z) (h : heap)
        (ourHand : list card) (opponentHands : list (list card)) :
  hT < length (cards h) -> cT < length (cards h) ->
  fst (deal shuffled i hT cT n h) = OK (ourHand, opponentHands) ->
  exists extra hands4,
    ourHand = nth hT (cards h) [] ++ nth cT (cards h) [] ++ extra /\
    length extra = 5 - length (nth cT (cards h) []) /\
    length hands4 = Z.to_nat (n - 1) /\
    Forall (fun four => length four = 4) hands4 /\
    opponentHands = map (fun four => four ++ nth cT (cards h) [] ++ extra) hands4 /\
    drawn (snd (deal shuffled i hT cT n h)) = drawn h ++ extra ++ concat hands4.
Proof.
  intros HhT HcT. rewrite deal_run by assumption. cbv zeta. cbn [fst snd drawn].
  intros H. destruct (deal_fun_shape _ _ _ _ _ _ H)
    as (extra & hands4 & deck1 & _ & Eo & Le & Lh & Hf & Eh & Ed).
  exists extra, hands4. rewrite Ed. auto 10.
Qed.

Lemma hands_of_a_trial_witness :
  exists extra hands4,
    [56; 52; 48; 44; 9; 13; 42; 43; 45]%Z = [56; 52; 48; 44]%Z ++ [9; 13; 42]%Z ++ extra /\
    length extra = 5 - 3 /\
    length hands4 = Z.to_nat (2 - 1) /\
    Forall (fun four => length four = 4) hands4 /\
    [[46; 47; 49; 50; 9; 13; 42; 43; 45]%Z]
    = map (fun four => four ++ [9; 13; 42]%Z ++ extra) hands4 /\
    drawn (snd (deal Sample.shuffled 5 0 1 2
                     (mkHeap [] [[56; 52; 48; 44]; [9; 13; 42]]%Z [])))
    = [] ++ extra ++ concat hands4.
Proof.
  apply (hands_of_a_trial Sample.shuffled 5 0 1 2
           (mkHeap [] [[56; 52; 48; 44]; [9; 13; 42]]%Z [])).
  - cbn. lia.
  - cbn. lia.
  - vm_compute. reflexivity.
Defined.

(** X8.  In a trial that reaches its showdown on a deck without a
    repeated card, the hole cards of the hero, the cards of the board and
    the hole cards of all the opponents are different cards: no card
    lies in two hands, or in a hand and on the board. *)
Theorem dealt_cards_all_distinct
        (shuffled : nat -> list card) (i : nat) (hT cT : loc) (n : Z) (h : heap)
        (ourHand : list card) (opponentHands : list (list card)) :
  hT < length (cards h) -> cT < length (cards h) ->
  NoDup (shuffled i) ->
  fst (deal shuffled i hT cT n h) = OK (ourHand, opponentHands) ->
  exists board hands4,
    ourHand = nth hT (cards h) [] ++ board /\
    opponentHands = map (fun four => four ++ board) hands4 /\
    NoDup (nth hT (cards h) [] ++ board ++ concat hands4).
Proof.
  intros HhT HcT Hnd. rewrite deal_run by assumption. cbv zeta. cbn [fst].
  intros H.
  set (hole := nth hT (cards h) []) in *. set (community := nth cT (cards h) []) in *.
  destruct (deal_fun_shape _ _ _ _ _ _ H)
    as (extra & hands4 & deck1 & R & Eo & _ & _ & _ & Eh & Ed).
  destruct (deal_fun_draws hole community (Z.to_nat (n - 1)) (shuffled i) Hnd)
    as (Hdr & Hin).
  destruct (remove_all_ok _ _ _ R) as (_ & _ & _ & Hk). destruct (Hk Hnd) as (Hknown & _).
  exists (community ++ extra), hands4.
  split; [assumption|]. split; [assumption|].
  rewrite Ed in Hdr, Hin.
  rewrite <- app_assoc, app_assoc. apply NoDup_app; [assumption | assumption |].
  intros c Hc Hc'. now apply (Hin c Hc').
Qed.

Lemma dealt_cards_all_distinct_witness :
  exists board hands4,
    [56; 52; 48; 44; 9; 13; 42; 43; 45]%Z = [56; 52; 48; 44]%Z ++ board /\
    [[46; 47; 49; 50; 9; 13; 42; 43; 45]%Z] = map (fun four => four ++ board) hands4 /\
    NoDup ([56; 52; 48; 44]%Z ++ board ++ concat hands4).
Proof.
  apply (dealt_cards_all_distinct Sample.shuffled 5 0 1 2
           (mkHeap [] [[56; 52; 48; 44]; [9; 13; 42]]%Z [])).
  - cbn. lia.
  - cbn. lia.
  - apply SampleFacts.shuffled_ok.
  - vm_compute. reflexivity.
Defined.

(** ** The endpoint *)

Section EndpointFacts.

Variable Card_new : Z -> Z -> option card.
Variable evaluate : list card -> list card -> option Z.
Variable shuffled : nat -> list card.
Variable str : exn -> string.

(** How the endpoint ends, by how the equity call ends. *)
Lemma calculateOdds_run (request : HandRequest) (h : heap) :
  fst (calculateOdds Card_new evaluate shuffled str request h)
  = match fst (calculateEquity Card_new evaluate shuffled (holeCards request)
                 (communityCards request) (numPlayers request) h) with
    | Raise e => Raise (HTTPException 400 (str e))
    | OK q =>
        match pot_odds (potSize request) (betToCall request) with
        | Raise e => Raise (HTTPException 400 (str e))
        | OK po =>
            OK (mkResponse q po
                  (Qle_bool 0 (q * potSize request - (1 - q) * betToCall request))
                  (q * potSize request - (1 - q) * betToCall request)%Q)
        end
    end.
Proof.
  unfold calculateOdds, try_except. rewrite run_bind.
  destruct (calculateEquity Card_new evaluate shuffled (holeCards request)
              (communityCards request) (numPlayers request) h) as [[q|e] h'];
    cbn [fst]; [|reflexivity].
  rewrite run_bind, run_lift.
  destruct (pot_odds (potSize request) (betToCall request)) as [po|e]; reflexivity.
Qed.

End EndpointFacts.

(** X12.  The endpoint turns every failure into an [HTTPException] of
    status 400 whose detail is the text [str(e)] of the exception.  The
    cards come first: when the equity call raises, its exception is the
    one reported, whatever the pot and the bet; a pot and a bet that
    sum to zero are reported, with the text of [ZeroDivisionError],
    only after the equity has been computed. *)
Theorem endpoint_failures
        (Card_new : Z -> Z -> option card) (evaluate : list card -> list card -> option Z)
        (shuffled : nat -> list card) (str : exn -> string)
        (request : HandRequest) (h : heap) :
  (forall e,
     fst (calculateEquity Card_new evaluate shuffled (holeCards request)
            (communityCards request) (numPlayers request) h) = Raise e ->
     fst (calculateOdds Card_new evaluate shuffled str request h)
     = Raise (HTTPException 400 (str e))) /\
  (forall x,
     fst (calculateOdds Card_new evaluate shuffled str request h) = Raise x ->
     exists e,
       x = HTTPException 400 (str e) /\
       (fst (calculateEquity Card_new evaluate shuffled (holeCards request)
               (communityCards request) (numPlayers request) h) = Raise e \/
        e = ZeroDivisionError /\
        (potSize request + betToCall request == 0)%Q /\
        exists q,
          fst (calculateEquity Card_new evaluate shuffled (holeCards request)
                 (communityCards request) (numPlayers request) h) = OK q)).
Proof.
  rewrite calculateOdds_run.
  destruct (fst (calculateEquity Card_new evaluate shuffled (holeCards request)
                   (communityCards request) (numPlayers request) h)) as [q|e0].
  - split; [discriminate|].
    unfold pot_odds, true_div.
    destruct (Qeq_bool (potSize request + betToCall request) 0) eqn:E;
      [|discriminate].
    intros x Hx. inversion Hx. exists ZeroDivisionError.
    split; [reflexivity|]. right.
    split; [reflexivity|]. split; [now apply Qeq_bool_eq | now exists q].
  - split.
    + intros e He. inversion He. reflexivity.
    + intros x Hx. inversion Hx. exists e0. split; [reflexivity | now left].
Qed.

Lemma endpoint_failures_witness :
  fst (calculateOdds Treys.Card_new Treys.evaluate Treys.shuffled
         (fun e => match e with
                   | ValueError_card_format cardStr => "Invalid card format: " ++ cardStr
                   | _ => "error"
                   end)%string
         (mkRequest 0 1 2 (-50) 50)
         (Sample.request_heap ["1s"; "Ks"] []))
  = Raise (HTTPException 400 "Invalid card format: 1s").
Proof.
  refine (proj1 (endpoint_failures Treys.Card_new Treys.evaluate Treys.shuffled
                   (fun e => match e with
                             | ValueError_card_format cardStr =>
                                 "Invalid card format: " ++ cardStr
                             | _ => "error"
                             end)%string
                   (mkRequest 0 1 2 (-50) 50)
                   (Sample.request_heap ["1s"; "Ks"] []))
                (ValueError_card_format "1s") _).
  vm_compute. reflexivity.
Defined.

(** X14.  The endpoint changes no list that exists when it is called,
    the two lists of the request among them, whether it answers or
    fails; its arithmetic touches no list at all: the heap it leaves is
    the heap the equity call leaves. *)
Theorem endpoint_mutates_nothing
        (Card_new : Z -> Z -> option card) (evaluate : list card -> list card -> option Z)
        (shuffled : nat -> list card) (str : exn -> string)
        (request : HandRequest) (h : heap) :
  snd (calculateOdds Card_new evaluate shuffled str request h)
  = snd (calculateEquity Card_new evaluate shuffled (holeCards request)
           (communityCards request) (numPlayers request) h) /\
  strs (snd (calculateOdds Card_new evaluate shuffled str request h)) = strs h /\
  (forall l, l < length (cards h) ->
     nth l (cards (snd (calculateOdds Card_new evaluate shuffled str request h))) []
     = nth l (cards h) []).
Proof.
  assert (E : snd (calculateOdds Card_new evaluate shuffled str request h)
              = snd (calculateEquity Card_new evaluate shuffled (holeCards request)
                       (communityCards request) (numPlayers request) h)).
  { unfold calculateOdds, try_except. rewrite run_bind.
    destruct (calculateEquity Card_new evaluate shuffled (holeCards request)
                (communityCards request) (numPlayers request) h) as [[q|e] h'];
      cbn [snd]; [|reflexivity].
    rewrite run_bind, run_lift.
    destruct (pot_odds (potSize request) (betToCall request)); reflexivity. }
  rewrite E. split; [reflexivity|].
  destruct (calculateEquity_run Card_new evaluate shuffled (holeCards request)
              (communityCards request) (numPlayers request) h)
    as (ext & drw & R & _).
  rewrite R. cbn [snd strs cards].
  split; [reflexivity|]. intros l Hl. now apply nth_old.
Qed.

Lemma endpoint_mutates_nothing_witness :
  strs (snd (calculateOdds Sample.Card_new Sample.evaluate Sample.shuffled
               (fun _ => "error")
               (mkRequest 0 1 2 0 0)
               (Sample.request_heap ["As"; "Ks"; "Qs"; "Js"] ["2h"])))
  = [["As"; "Ks"; "Qs"; "Js"]; ["2h"]].
Proof.
  apply (endpoint_mutates_nothing Sample.Card_new Sample.evaluate Sample.shuffled
           (fun _ => "error")
           (mkRequest 0 1 2 0 0)
           (Sample.request_heap ["As"; "Ks"; "Qs"; "Js"] ["2h"])).
Defined.
